(** * mandelbrot-gpu: the animation driver and the fractal shader

    A shallow embedding of [src/FractalEngine.ts] (and of the second,
    earlier variant of the same file) together with the properties its
    specification states.

    Numbers.  The program computes with IEEE floating-point numbers.  The
    development reads them in two ways:

    - exactly: every [+], [-], [*], [/] and comparison of the driver and of
      the escape loop is taken over the rationals [Q], so these parts run
      inside Rocq; from the first transcendental function onwards
      ([log2], the palette rotation) and for the colour gradient the values
      are real numbers [R].  Rounding is not modelled;
    - as binary64 ([Module Binary64]): the resize handler and the zoom update
      are also given over Rocq's primitive floats, which are JavaScript's
      numbers, because what a division by zero produces is a property of the
      floating-point format and not of the field of rationals. *)

From Stdlib Require Import ZArith QArith Qreals Reals Psatz List Bool.
From Stdlib Require Floats.
From Stdlib Require Import RNsatz.
Import ListNotations.

(** ** Vectors and the node operations of the shading language *)

Record vec2 : Set := Vec2 { vx : Q; vy : Q }.

Record vec3 : Type := Vec3 { cr : R; cg : R; cb : R }.

Record vec4 : Type := Vec4 { rgb : vec3; alpha : R }.

Definition dot (a b : vec2) : Q := (vx a * vx b + vy a * vy b)%Q.

Definition add2 (a b : vec2) : vec2 := Vec2 (vx a + vx b)%Q (vy a + vy b)%Q.

Definition mul2 (a : vec2) (k : Q) : vec2 := Vec2 (vx a * k)%Q (vy a * k)%Q.

Definition add3 (a b : vec3) : vec3 :=
  Vec3 (cr a + cr b)%R (cg a + cg b)%R (cb a + cb b)%R.

Definition sub3 (a b : vec3) : vec3 :=
  Vec3 (cr a - cr b)%R (cg a - cg b)%R (cb a - cb b)%R.

Definition mul3 (a : vec3) (k : R) : vec3 :=
  Vec3 (cr a * k)%R (cg a * k)%R (cb a * k)%R.

Definition divideScalar (a : vec3) (k : R) : vec3 :=
  Vec3 (cr a / k)%R (cg a / k)%R (cb a / k)%R.

Definition select {A : Type} (c : bool) (a b : A) : A := if c then a else b.

Definition greaterThan (a b : Q) : bool := negb (Qle_bool a b).

Definition lessThanEqual (a b : R) : bool :=
  if Rle_dec a b then true else false.

Definition log2 (x : R) : R := (ln x / ln 2)%R.

(** ** Constants of [FractalEngine.ts] *)

Definition MAX_ZOOM : Q := 2.5.
Definition MIN_ZOOM : Q := 0.0003.

Definition COLOR_0 : vec3 := divideScalar (Vec3 0 7 100) 255.
Definition COLOR_1 : vec3 := divideScalar (Vec3 32 107 203) 255.
Definition COLOR_2 : vec3 := divideScalar (Vec3 237 255 255) 255.
Definition COLOR_3 : vec3 := divideScalar (Vec3 255 170 0) 255.
Definition COLOR_4 : vec3 := divideScalar (Vec3 0 2 0) 255.

(** [new THREE.Vector3(1, 1, 1).normalize()] *)
Definition colorRotationAxis : vec3 :=
  divideScalar (Vec3 1 1 1) (sqrt 3).

Definition dot3 (a b : vec3) : R := (cr a * cr b + cg a * cg b + cb a * cb b)%R.

Definition cross3 (a b : vec3) : vec3 :=
  Vec3 (cg a * cb b - cb a * cg b)%R
       (cb a * cr b - cr a * cb b)%R
       (cr a * cg b - cg a * cr b)%R.

(** [Vector3.applyAxisAngle] belongs to three.js; it rotates the vector about
    the unit [axis] by [angle], here written as Rodrigues' formula. *)
Definition applyAxisAngle (v axis : vec3) (angle : R) : vec3 :=
  add3 (add3 (mul3 v (cos angle)) (mul3 (cross3 axis v) (sin angle)))
       (mul3 axis (dot3 axis v * (1 - cos angle))%R).

Definition rotateColor (color : vec3) (angle : R) : vec3 :=
  applyAxisAngle color colorRotationAxis angle.

(** ** The fractal shader

    The three [Fn] closures of the constructor read the uniforms of the
    engine; here the uniforms are the variables of a section. *)

(** What the escape loop leaves behind: the final [z], the counter [n], and
    two ghost values that record the control flow, the number of times the
    loop body was entered ([trips]) and whether [Break] was taken. *)
Record LoopExit : Set := Exit {
  exit_z : vec2;
  exit_n : Z;
  trips : nat;
  stoppedEarly : bool
}.

Section Shader.

Variables uZoom uAspect : Q.
Variable uStart : vec2.
Variable uMaxIterations : Z.
Variables uColor0 uColor1 uColor2 uColor3 uColor4 : vec3.

Definition maxIterations : R := 100.
Definition b : Q := 256.

(** The nested [select] of [rgbColorFromIteration], as a function of
    [fractionalIteration]. *)
Definition gradient (fractionalIteration : R) : vec3 :=
  select (lessThanEqual fractionalIteration 0.16)
    (add3 uColor0 (mul3 (sub3 uColor1 uColor0) (fractionalIteration / 0.16)))
    (select (lessThanEqual fractionalIteration 0.42)
       (add3 uColor1
          (mul3 (sub3 uColor2 uColor1)
             ((fractionalIteration - 0.16) / (0.42 - 0.16))))
       (select (lessThanEqual fractionalIteration 0.6425)
          (add3 uColor2
             (mul3 (sub3 uColor3 uColor2)
                ((fractionalIteration - 0.42) / (0.6425 - 0.42))))
          (select (lessThanEqual fractionalIteration 0.8575)
             (add3 uColor3
                (mul3 (sub3 uColor4 uColor3)
                   ((fractionalIteration - 0.6425) / (0.8575 - 0.6425))))
             uColor4)))%R.

Definition rgbColorFromIteration (iteration : R) : vec3 :=
  let fractionalIteration := (iteration / maxIterations)%R in
  gradient fractionalIteration.

(** [Loop({ start: 0, end: uMaxIterations, type: 'int', condition: '<' })]:
    [remaining] counts the passes that are left. *)
Fixpoint Loop (uv : vec2) (remaining : nat) (z : vec2) (n : Z) (entered : nat)
  : LoopExit :=
  match remaining with
  | O => Exit z n entered false
  | S k =>
      let z' :=
        add2 (Vec2 (vx z * vx z - vy z * vy z)%Q (2 * vx z * vy z)%Q) uv in
      if greaterThan (dot z' z') (b * b)%Q
      then Exit z' n (S entered) true
      else Loop uv k z' (n + 1)%Z (S entered)
  end.

(** [inSet] is the constant node [bool(false)].  The statement
    [inSet.value = true] in the callback of the [If] is an assignment of
    JavaScript, made on the host while the shader is built; it is not a node
    operation such as [z.assign] or [n.addAssign], so the test of [n]
    against [uMaxIterations - 1] guards no statement of the shader and the
    [select] is handed [false] for every pixel. *)
Definition iterateMandelbrot (z uv : vec2) : R :=
  let out := Loop uv (Z.to_nat uMaxIterations) z 0%Z O in
  let z := exit_z out in
  let n := exit_n out in
  let inSet := false in
  select inSet 0%R (IZR n - (log2 (log2 (Q2R (dot z z))) + 4.0))%R.

Definition samplePoint (positionLocal : vec2) : vec2 :=
  let pos := Vec2 (vx positionLocal * uAspect)%Q (vy positionLocal) in
  add2 (mul2 pos uZoom) uStart.

Definition mandelBrot (positionLocal : vec2) : vec4 :=
  let scaled := samplePoint positionLocal in
  let z := Vec2 0 0 in
  let iterations := iterateMandelbrot z scaled in
  Vec4 (rgbColorFromIteration iterations) 1.0%R.

End Shader.

(** ** The second variant of the shader (the unnamed source file)

    It differs in the loop, which tests [dot(z, z) > 4.0] before it advances
    [z] and records the loop index, and in the treatment of interior points,
    which are black.  Its colour mapping is the one above. *)

Module Part000.

Definition MAX_ZOOM : Q := 2.5.
Definition MIN_ZOOM : Q := 0.000005.

Section Shader.

Variables uZoom uAspect : Q.
Variable uStart : vec2.
Variable uMaxIterations : Z.
Variables uColor0 uColor1 uColor2 uColor3 uColor4 : vec3.

(** [i] is the loop index; [iteration] keeps the last index assigned. *)
Fixpoint Loop (scaled : vec2) (remaining : nat) (i : Z) (z : vec2)
  (iteration : Z) (entered : nat) : LoopExit :=
  match remaining with
  | O => Exit z iteration entered false
  | S k =>
      let iteration := i in
      if greaterThan (dot z z) 4.0
      then Exit z iteration (S entered) true
      else
        Loop scaled k (i + 1)%Z
          (Vec2 (vx z * vx z - vy z * vy z + vx scaled)%Q
                (2 * vx z * vy z + vy scaled)%Q)
          iteration (S entered)
  end.

Definition mandelBrot (positionLocal : vec2) : vec4 :=
  let pos := Vec2 (vx positionLocal * uAspect)%Q (vy positionLocal) in
  let scaled := add2 (mul2 pos uZoom) uStart in
  let z := Vec2 0 0 in
  let iteration := 0%Z in
  let out := Loop scaled (Z.to_nat uMaxIterations) 0%Z z iteration O in
  let iteration := exit_n out in
  let color :=
    select (uMaxIterations - 1 <=? iteration)%Z
      (Vec3 0 0 0)
      (rgbColorFromIteration uColor0 uColor1 uColor2 uColor3 uColor4
         (IZR iteration)) in
  Vec4 color 1.0%R.

End Shader.

End Part000.

(** ** The animation driver *)

(** The value of a JavaScript number that is meant to be an integer:
    [Math.floor] returns its argument when that is not finite. *)
Inductive number : Set :=
| Finite (n : Z)
| Infinity
| NaN.

Record Engine : Type := {
  zoomingIn : bool;
  time : option Q;
  uZoom : Q;
  uStart : vec2;
  uAspect : Q;
  uMaxIterations : number;
  uColor0 : vec3;
  uColor1 : vec3;
  uColor2 : vec3;
  uColor3 : vec3;
  uColor4 : vec3
}.

(** The field initialisers of the class. *)
Definition newEngine : Engine := {|
  zoomingIn := true;
  time := None;
  uZoom := MAX_ZOOM;
  uStart := Vec2 (-0.743643887037151) 0.13182590420533;
  uAspect := 1;
  uMaxIterations := Finite 100;
  uColor0 := COLOR_0;
  uColor1 := COLOR_1;
  uColor2 := COLOR_2;
  uColor3 := COLOR_3;
  uColor4 := COLOR_4
|}.

(** [this.time === null ? 0 : currentTime - this.time] *)
Definition frameDelta (currentTime : Q) (e : Engine) : Q :=
  match time e with
  | None => 0
  | Some t => currentTime - t
  end.

(** [Math.log2(2.5 / zoom)], for a positive [zoom]. *)
Definition zoomDepth (zoom : Q) : R := log2 (Q2R (2.5 / zoom)).

(** [Math.floor(100 + Math.log2(2.5 / zoom) * 50)].  In JavaScript
    [2.5 / 0] is [Infinity], whose logarithm and floor are [Infinity]; a
    negative quotient has the logarithm [NaN]. *)
Definition iterationBudget (zoom : Q) : number :=
  if Qeq_bool zoom 0 then Infinity
  else if Qle_bool zoom 0 then NaN
  else Finite (Zfloor (100 + zoomDepth zoom * 50)).

Definition renderLoop (currentTime : Q) (e : Engine) : Engine :=
  let delta := frameDelta currentTime e in
  let zoomingIn' :=
    if Qle_bool (uZoom e) MIN_ZOOM then false
    else if Qle_bool MAX_ZOOM (uZoom e) then true
    else zoomingIn e in
  let uZoom' :=
    (uZoom e * (1 - delta * 0.0005 * (if zoomingIn' then 1 else -1)))%Q in
  {| zoomingIn := zoomingIn';
     time := Some currentTime;
     uZoom := uZoom';
     uStart := uStart e;
     uAspect := uAspect e;
     uMaxIterations := iterationBudget uZoom';
     uColor0 := rotateColor COLOR_0 (Q2R (currentTime * 0.0002));
     uColor1 := rotateColor COLOR_1 (Q2R (currentTime * 0.0003));
     uColor2 := rotateColor COLOR_2 (Q2R (currentTime * 0.0004));
     uColor3 := rotateColor COLOR_3 (Q2R (currentTime * 0.0005));
     uColor4 := rotateColor COLOR_4 (Q2R (currentTime * 0.0006)) |}.

(** The states of the animation: the engine as constructed, and what
    [renderLoop] makes of a state when the frame delta is one that [ok]
    admits. *)
Inductive reachable (ok : Q -> Prop) : Engine -> Prop :=
| reachable_new : reachable ok newEngine
| reachable_frame (e : Engine) (currentTime : Q) :
    reachable ok e ->
    ok (frameDelta currentTime e) ->
    reachable ok (renderLoop currentTime e).

(** The engine after the frames drawn at the given clock readings. *)
Definition frames (clock : list Q) : Engine :=
  fold_left (fun e currentTime => renderLoop currentTime e) clock newEngine.

(** The iterates of the recurrence [z -> z * z + c], as the loop computes
    them. *)
Fixpoint orbit (c z : vec2) (k : nat) : vec2 :=
  match k with
  | O => z
  | S j =>
      let w := orbit c z j in
      add2 (Vec2 (vx w * vx w - vy w * vy w)%Q (2 * vx w * vy w)%Q) c
  end.

(** ** The binary64 reading *)

Module Binary64.

Import Floats.
Local Open Scope float_scope.
#[local] Set Warnings "-inexact-float".

Definition MAX_ZOOM : float := 2.5.
Definition MIN_ZOOM : float := 0.0003.

(** [entry.contentRect] *)
Record contentRect : Set := { width : float; height : float }.

(** What the resize handler writes: the size and the pixel ratio of the
    renderer, and the uniform [uAspect]. *)
Record Viewport : Set := {
  rendererSize : float * float;
  pixelRatio : float;
  uAspect : float
}.

Definition resizeEntry (v : Viewport) (entry : contentRect) : Viewport :=
  let width := width entry in
  let height := height entry in
  {| rendererSize := (width, height);
     pixelRatio := pixelRatio v;
     uAspect := width / height |}.

Definition onResize (devicePixelRatio : float) (entries : list contentRect)
  (v : Viewport) : Viewport :=
  let v' := fold_left resizeEntry entries v in
  {| rendererSize := rendererSize v';
     pixelRatio := devicePixelRatio;
     uAspect := uAspect v' |}.

(** The handler of the second variant does not set the pixel ratio. *)
Definition onResize_part000 (entries : list contentRect) (v : Viewport)
  : Viewport :=
  fold_left resizeEntry entries v.

(** The first two lines of [mandelBrot], the same in both variants. *)
Definition samplePoint (uAspect uZoom : float) (uStart : float * float)
  (positionLocal : float * float) : float * float :=
  let pos := (fst positionLocal * uAspect, snd positionLocal) in
  (fst pos * uZoom + fst uStart, snd pos * uZoom + snd uStart).

(** Lines 151 to 157 of [renderLoop]. *)
Definition zoomUpdate (delta : float) (zoomingIn : bool) (uZoom : float)
  : bool * float :=
  let zoomingIn' :=
    if uZoom <=? MIN_ZOOM then false
    else if MAX_ZOOM <=? uZoom then true
    else zoomingIn in
  (zoomingIn', uZoom * (1 - delta * 0.0005 * (if zoomingIn' then 1 else -1))).


(** Infinities and NaN, on the specification side of the floats. *)
Definition nonfinite (x : spec_float) : Prop :=
  match x with
  | S754_infinity _ | S754_nan => True
  | _ => False
  end.

End Binary64.

(** ** Notions used to state the properties *)

(** The frames drawn from [e] at the clock readings [clock] all have a
    delta that [ok] admits. *)
Fixpoint clock_ok (ok : Q -> Prop) (e : Engine) (clock : list Q) : Prop :=
  match clock with
  | [] => True
  | currentTime :: rest =>
      ok (frameDelta currentTime e) /\
      clock_ok ok (renderLoop currentTime e) rest
  end.

(** [f] tends to its value at [t0] when the argument approaches [t0] from
    above, in each colour channel. *)
Definition continuous_from_above (f : R -> vec3) (t0 : R) : Prop :=
  limit1_in (fun t => cr (f t)) (fun t => t0 < t)%R (cr (f t0)) t0 /\
  limit1_in (fun t => cg (f t)) (fun t => t0 < t)%R (cg (f t0)) t0 /\
  limit1_in (fun t => cb (f t)) (fun t => t0 < t)%R (cb (f t0)) t0.

(** The mirror image of a point in the real axis. *)
Definition conjugate (z : vec2) : vec2 := Vec2 (vx z) (- vy z)%Q.

(** The smallest and the largest of five values. *)
Definition min5 (a0 a1 a2 a3 a4 : R) : R :=
  Rmin a0 (Rmin a1 (Rmin a2 (Rmin a3 a4))).

Definition max5 (a0 a1 a2 a3 a4 : R) : R :=
  Rmax a0 (Rmax a1 (Rmax a2 (Rmax a3 a4))).

(** The channel sum and the squared length of a colour. *)
Definition channelSum (c : vec3) : R := (cr c + cg c + cb c)%R.

Definition lengthSq (c : vec3) : R := dot3 c c.

(** ** The resize observer over the life of the engine

    A [ResizeObserver] keeps the set of its targets: [observe] adds an
    element, [unobserve] removes it.  Elements are told apart by an
    identifier. *)

Definition element : Set := positive.

Definition observe (target : element) (targets : list element)
  : list element :=
  if in_dec Pos.eq_dec target targets then targets else target :: targets.

Definition unobserve (target : element) (targets : list element)
  : list element :=
  remove Pos.eq_dec target targets.

(** The constructor: [this.canvasContainer = canvas.parentElement] and
    [this.resizeObserver.observe(this.canvasContainer)] on a new observer. *)
Definition constructor_targets (canvasContainer : element) : list element :=
  observe canvasContainer [].

(** The first statement of [dispose]:
    [this.resizeObserver.unobserve(this.canvas)]. *)
Definition dispose_targets (canvas : element) (targets : list element)
  : list element :=
  unobserve canvas targets.

(** ** A steady frame rate *)

(** The frame drawn [delta] milliseconds after the one before; the first
    frame of an engine is drawn at the clock reading 0. *)
Definition nextFrame (delta : Q) (e : Engine) : Engine :=
  renderLoop (match time e with Some t => t + delta | None => 0 end)%Q e.

(** The engine after [n] frames at the steady rate. *)
Definition steadyFrames (delta : Q) (n : nat) : Engine :=
  Nat.iter n (nextFrame delta) newEngine.

Fixpoint power (r : Q) (n : nat) : Q :=
  match n with
  | O => 1
  | S k => r * power r k
  end.

(** ** Facts about the node operations *)

Lemma greaterThan_true (x y : Q) : greaterThan x y = true <-> (y < x)%Q.
Proof.
  unfold greaterThan. rewrite negb_true_iff. split; intro H.
  - apply Qnot_le_lt. intro Hle. apply Qle_bool_iff in Hle. congruence.
  - destruct (Qle_bool x y) eqn:E; [|reflexivity].
    apply Qle_bool_iff in E. exfalso. exact (Qlt_not_le _ _ H E).
Qed.

Lemma greaterThan_false (x y : Q) : greaterThan x y = false <-> (x <= y)%Q.
Proof.
  unfold greaterThan. rewrite negb_false_iff. apply Qle_bool_iff.
Qed.

Lemma lessThanEqual_true (x y : R) : (x <= y)%R -> lessThanEqual x y = true.
Proof. intro H. unfold lessThanEqual. destruct (Rle_dec x y); tauto. Qed.

Lemma lessThanEqual_false (x y : R) : (y < x)%R -> lessThanEqual x y = false.
Proof.
  intro H. unfold lessThanEqual. destruct (Rle_dec x y); [lra | reflexivity].
Qed.

(** ** The escape loop *)

(** The loop body is entered at most once per pass. *)
Lemma Loop_trips_bound (uv : vec2) (k : nat) :
  forall z n e, (e <= trips (Loop uv k z n e) <= e + k)%nat.
Proof.
  induction k as [|k IH]; intros z n e; cbn [Loop trips exit_n stoppedEarly exit_z].
  - lia.
  - destruct (greaterThan _ _); cbn [Loop trips exit_n stoppedEarly exit_z].
    + lia.
    + specialize (IH (add2 (Vec2 (vx z * vx z - vy z * vy z)
                                 (2 * vx z * vy z)) uv) (n + 1)%Z (S e)).
      lia.
Qed.

(** A loop that ran to completion used every pass and counted each one. *)
Lemma Loop_completed (uv : vec2) (k : nat) :
  forall z n e,
    stoppedEarly (Loop uv k z n e) = false ->
    trips (Loop uv k z n e) = (e + k)%nat /\
    exit_n (Loop uv k z n e) = (n + Z.of_nat k)%Z.
Proof.
  induction k as [|k IH]; intros z n e; cbn [Loop trips exit_n stoppedEarly exit_z].
  - intros _. split; lia.
  - destruct (greaterThan _ _); cbn [Loop trips exit_n stoppedEarly exit_z].
    + discriminate.
    + intro H. destruct (IH _ _ _ H) as [Ht Hn]. rewrite Ht, Hn. split; lia.
Qed.

(** A loop that stopped early did so in the pass after the [n] counted ones,
    on an iterate outside the bailout radius. *)
Lemma Loop_stopped (uv : vec2) (k : nat) :
  forall z n e,
    stoppedEarly (Loop uv k z n e) = true ->
    (exit_n (Loop uv k z n e) < n + Z.of_nat k)%Z /\
    (Z.of_nat (trips (Loop uv k z n e)) - Z.of_nat e
     = exit_n (Loop uv k z n e) - n + 1)%Z /\
    (b * b < dot (exit_z (Loop uv k z n e)) (exit_z (Loop uv k z n e)))%Q.
Proof.
  induction k as [|k IH]; intros z n e; cbn [Loop trips exit_n stoppedEarly exit_z].
  - discriminate.
  - destruct (greaterThan _ _) eqn:G; cbn [Loop trips exit_n stoppedEarly exit_z].
    + intros _. split; [lia|]. split; [lia|]. now apply greaterThan_true.
    + intro H. destruct (IH _ _ _ H) as (Hn & Ht & Hz).
      split; [lia|]. split; [lia|exact Hz].
Qed.

Lemma orbit_shift (c z : vec2) (j : nat) :
  orbit c z (S j)
  = orbit c (add2 (Vec2 (vx z * vx z - vy z * vy z) (2 * vx z * vy z)) c) j.
Proof.
  induction j as [|j IH].
  - reflexivity.
  - change (orbit c z (S (S j)))
      with (let w := orbit c z (S j) in
            add2 (Vec2 (vx w * vx w - vy w * vy w) (2 * vx w * vy w)) c).
    rewrite IH. reflexivity.
Qed.

(** The final [z] is the iterate numbered by the passes entered. *)
Lemma Loop_exit_orbit (uv : vec2) (k : nat) :
  forall z n e,
    exit_z (Loop uv k z n e) = orbit uv z (trips (Loop uv k z n e) - e).
Proof.
  induction k as [|k IH]; intros z n e; cbn [Loop trips exit_n stoppedEarly exit_z].
  - now rewrite Nat.sub_diag.
  - destruct (greaterThan _ _); cbn [Loop trips exit_n stoppedEarly exit_z].
    + replace (S e - e)%nat with 1%nat by lia. reflexivity.
    + rewrite IH.
      pose proof (Loop_trips_bound uv k
        (add2 (Vec2 (vx z * vx z - vy z * vy z) (2 * vx z * vy z)) uv)
        (n + 1)%Z (S e)) as Hb.
      set (t := trips _) in *.
      replace (t - e)%nat with (S (t - S e)) by lia.
      now rewrite orbit_shift.
Qed.

(** An iterate outside the bailout radius among the first [k] stops the loop
    no later than in its pass. *)
Lemma Loop_escape (uv : vec2) (k : nat) :
  forall z n e j,
    (1 <= j <= k)%nat ->
    (b * b < dot (orbit uv z j) (orbit uv z j))%Q ->
    stoppedEarly (Loop uv k z n e) = true /\
    (trips (Loop uv k z n e) <= e + j)%nat.
Proof.
  induction k as [|k IH]; intros z n e j Hj Hesc.
  - lia.
  - cbn [Loop]. destruct (greaterThan _ _) eqn:G; cbn [Loop trips exit_n stoppedEarly exit_z].
    + split; [reflexivity | lia].
    + destruct j as [|j]; [lia|]. destruct j as [|j].
      * simpl in Hesc. apply greaterThan_true in Hesc. congruence.
      * rewrite orbit_shift in Hesc.
        destruct (IH _ (n + 1)%Z (S e) (S j) ltac:(lia) Hesc) as [Hs Ht].
        split; [exact Hs | lia].
Qed.

(** C7.  For every sample point and every budget [M >= 0] the escape loop
    enters its body at most [M] times; and when an iterate [z_k] with
    [k < M] lies outside the bailout radius ([|z_k|^2 > 256^2]) the loop
    stops having entered its body fewer than [M] times. *)
Theorem escape_loop_terminates_within_budget (uv : vec2) (M : Z) :
  (0 <= M)%Z ->
  let out := Loop uv (Z.to_nat M) (Vec2 0 0) 0 0 in
  (Z.of_nat (trips out) <= M)%Z /\
  forall k : nat,
    (Z.of_nat k < M)%Z ->
    (b * b < dot (orbit uv (Vec2 0 0) k) (orbit uv (Vec2 0 0) k))%Q ->
    stoppedEarly out = true /\ (Z.of_nat (trips out) < M)%Z.
Proof.
  intros HM out. split.
  - pose proof (Loop_trips_bound uv (Z.to_nat M) (Vec2 0 0) 0%Z 0%nat) as H.
    fold out in H. lia.
  - intros k Hk Hesc. destruct k as [|k].
    + exfalso. revert Hesc. cbn. discriminate.
    + destruct (Loop_escape uv (Z.to_nat M) (Vec2 0 0) 0%Z 0%nat (S k)
                  ltac:(lia) Hesc) as [Hs Ht].
      fold out in Hs, Ht. split; [exact Hs | lia].
Qed.

(** The orbit of [c = 2]: 2, 6, 38, 1446. *)
Lemma Loop_at_two :
  Loop (Vec2 2 0) (Z.to_nat 100) (Vec2 0 0) 0 0 = Exit (Vec2 1446 0) 3 4 true.
Proof. vm_compute. reflexivity. Qed.

Lemma escape_loop_terminates_within_budget_witness :
  (0 <= 100)%Z /\
  let out := Loop (Vec2 2 0) (Z.to_nat 100) (Vec2 0 0) 0 0 in
  (Z.of_nat (trips out) <= 100)%Z /\
  forall k : nat,
    (Z.of_nat k < 100)%Z ->
    (b * b < dot (orbit (Vec2 2 0) (Vec2 0 0) k) (orbit (Vec2 2 0) (Vec2 0 0) k))%Q ->
    stoppedEarly out = true /\ (Z.of_nat (trips out) < 100)%Z.
Proof.
  split; [lia | apply (escape_loop_terminates_within_budget (Vec2 2 0) 100); lia].
Defined.

(** ** The logarithm *)

Lemma ln_2_pos : (0 < ln 2)%R.
Proof. pose proof ln_lt_2. lra. Qed.

Lemma log2_1 : log2 1 = 0%R.
Proof. unfold log2. rewrite ln_1. pose proof ln_2_pos. field. lra. Qed.

Lemma log2_2 : log2 2 = 1%R.
Proof. unfold log2. pose proof ln_2_pos. field. lra. Qed.

Lemma log2_le (x y : R) : (0 < x)%R -> (x <= y)%R -> (log2 x <= log2 y)%R.
Proof.
  intros Hx Hxy. unfold log2, Rdiv.
  apply Rmult_le_compat_r.
  - left. apply Rinv_0_lt_compat, ln_2_pos.
  - destruct Hxy as [Hlt | ->]; [left; now apply ln_increasing | right; reflexivity].
Qed.

(** The double logarithm of a value of at least 2 is not negative. *)
Lemma log2_log2_nonneg (x : R) : (2 <= x)%R -> (0 <= log2 (log2 x))%R.
Proof.
  intro Hx. rewrite <- log2_1. apply log2_le; [lra|].
  rewrite <- log2_2. apply log2_le; lra.
Qed.

(** ** The scenario [c = 2 + 0i] *)

Lemma Q2R_dot_exit_two :
  Q2R (dot (Vec2 1446 0) (Vec2 1446 0)) = 2090916%R.
Proof.
  change (dot (Vec2 1446 0) (Vec2 1446 0)) with (2090916 # 1)%Q.
  unfold Q2R. simpl. lra.
Qed.

Lemma iterateMandelbrot_at_two :
  iterateMandelbrot 100 (Vec2 0 0) (Vec2 2 0)
  = (3 - (log2 (log2 2090916) + 4))%R.
Proof.
  unfold iterateMandelbrot. rewrite Loop_at_two.
  cbn [exit_z exit_n]. rewrite Q2R_dot_exit_two.
  unfold select. lra.
Qed.

(** What the shader returns for a point that escaped before the last pass:
    the offset 4 is subtracted together with the double logarithm, which
    leaves the value 8 below [n - log2 (log2 |z|^2) + 4]. *)
Lemma iterateMandelbrot_escaped (uMaxIterations : Z) (uv : vec2) :
  let out := Loop uv (Z.to_nat uMaxIterations) (Vec2 0 0) 0 0 in
  let n := IZR (exit_n out) in
  let z := exit_z out in
  stoppedEarly out = true ->
  (exit_n out < uMaxIterations - 1)%Z ->
  (b * b < dot z z)%Q /\
  iterateMandelbrot uMaxIterations (Vec2 0 0) uv
  = (n - (log2 (log2 (Q2R (dot z z))) + 4))%R /\
  iterateMandelbrot uMaxIterations (Vec2 0 0) uv
  = (n - log2 (log2 (Q2R (dot z z))) + 4 - 8)%R.
Proof.
  intros out n z Hs Hn.
  destruct (Loop_stopped uv _ _ _ _ Hs) as (_ & _ & Hz).
  assert (E : iterateMandelbrot uMaxIterations (Vec2 0 0) uv
              = (n - (log2 (log2 (Q2R (dot z z))) + 4))%R).
  { unfold iterateMandelbrot. fold out.
    unfold select, n, z. lra. }
  split; [exact Hz|]. split; [exact E|]. rewrite E. lra.
Qed.

(** C1 (the code at [c = 2 + 0i], budget 100).  The point escapes with
    [n = 3] and [|z|^2 = 2090916]; the shader returns
    [3 - (log2 (log2 2090916) + 4)], which is not the value
    [3 - log2 (log2 2090916) + 4] of the smoothed count. *)
Theorem smoothed_count_subtracts_offset :
  let out := Loop (Vec2 2 0) (Z.to_nat 100) (Vec2 0 0) 0 0 in
  stoppedEarly out = true /\
  exit_n out = 3%Z /\
  Q2R (dot (exit_z out) (exit_z out)) = 2090916%R /\
  iterateMandelbrot 100 (Vec2 0 0) (Vec2 2 0)
  = (3 - (log2 (log2 2090916) + 4))%R /\
  iterateMandelbrot 100 (Vec2 0 0) (Vec2 2 0)
  <> (3 - log2 (log2 2090916) + 4)%R.
Proof.
  cbv zeta. rewrite Loop_at_two. cbn [stoppedEarly exit_n exit_z].
  repeat split.
  - apply Q2R_dot_exit_two.
  - apply iterateMandelbrot_at_two.
  - rewrite iterateMandelbrot_at_two. lra.
Qed.

(** C9, as the scenario states it, fails: at [c = 2 + 0i] no iterate among
    the first two (nor the third) lies outside the bailout radius, and the
    loop enters its body four times. *)
Lemma two_iterations_do_not_escape :
  trips (Loop (Vec2 2 0) (Z.to_nat 100) (Vec2 0 0) 0 0) = 4%nat /\
  ~ exists k : nat,
      (k <= 2)%nat /\
      (b * b < dot (orbit (Vec2 2 0) (Vec2 0 0) k)
                   (orbit (Vec2 2 0) (Vec2 0 0) k))%Q.
Proof.
  split.
  - now rewrite Loop_at_two.
  - intros (k & Hk & Hesc).
    destruct k as [|[|[|k]]]; [| | |lia]; revert Hesc; cbn; discriminate.
Qed.

(** C9, amended.  At [c = 2 + 0i] with a budget of 100 the iterates are
    2, 6, 38, 1446: the first three stay within the bailout radius, the
    fourth leaves it, so the loop stops in its fourth pass with [n = 3]
    (at most 3); the normalised value [t] is not above 0.16 and the colour
    is taken from the first band of the gradient. *)
Theorem scenario_two_escapes_in_fourth_iteration
  (uColor0 uColor1 uColor2 uColor3 uColor4 : vec3) :
  let c := Vec2 2 0 in
  let z := orbit c (Vec2 0 0) in
  let out := Loop c (Z.to_nat 100) (Vec2 0 0) 0 0 in
  let iterations := iterateMandelbrot 100 (Vec2 0 0) c in
  let t := (iterations / maxIterations)%R in
  (dot (z 1%nat) (z 1%nat) <= b * b)%Q /\
  (dot (z 2%nat) (z 2%nat) <= b * b)%Q /\
  (dot (z 3%nat) (z 3%nat) <= b * b)%Q /\
  (b * b < dot (z 4%nat) (z 4%nat))%Q /\
  stoppedEarly out = true /\
  trips out = 4%nat /\
  exit_z out = Vec2 1446 0 /\
  exit_n out = 3%Z /\
  (exit_n out <= 3)%Z /\
  (t <= 0.16)%R /\
  rgbColorFromIteration uColor0 uColor1 uColor2 uColor3 uColor4 iterations
  = add3 uColor0 (mul3 (sub3 uColor1 uColor0) (t / 0.16)).
Proof.
  cbv zeta. rewrite Loop_at_two. cbn [stoppedEarly trips exit_z exit_n].
  assert (Ht : (iterateMandelbrot 100 (Vec2 0 0) (Vec2 2 0) / maxIterations
                <= 0.16)%R).
  { rewrite iterateMandelbrot_at_two. unfold maxIterations.
    pose proof (log2_log2_nonneg 2090916 ltac:(lra)). lra. }
  repeat split; try (cbn; discriminate); try reflexivity; try lia.
  - exact Ht.
  - unfold rgbColorFromIteration, gradient.
    rewrite (lessThanEqual_true _ _ Ht). reflexivity.
Qed.

(** ** The interior test *)

Lemma add3_mul3_zero (p q : vec3) : add3 p (mul3 (sub3 q p) 0) = p.
Proof.
  destruct p, q. unfold add3, mul3, sub3. cbn [cr cg cb].
  f_equal; lra.
Qed.

(** The iteration value 0 is mapped to the first colour of the palette. *)
Lemma rgbColorFromIteration_zero (c0 c1 c2 c3 c4 : vec3) :
  rgbColorFromIteration c0 c1 c2 c3 c4 0 = c0.
Proof.
  unfold rgbColorFromIteration, gradient, maxIterations.
  replace (0 / 100)%R with 0%R by lra.
  rewrite lessThanEqual_true by lra. unfold select.
  replace (0 / 0.16)%R with 0%R by lra.
  apply add3_mul3_zero.
Qed.

(** The loop of the second variant: run to completion it leaves the last
    index in [iteration]; stopped early it leaves the index of the pass that
    stopped it. *)
Lemma Part000_Loop_completed (scaled : vec2) (k : nat) :
  forall i z it e,
    stoppedEarly (Part000.Loop scaled k i z it e) = false ->
    exit_n (Part000.Loop scaled k i z it e)
    = match k with O => it | S _ => (i + Z.of_nat k - 1)%Z end.
Proof.
  induction k as [|k IH]; intros i z it e;
    cbn [Part000.Loop trips exit_n stoppedEarly exit_z].
  - reflexivity.
  - destruct (greaterThan _ _);
      cbn [Part000.Loop trips exit_n stoppedEarly exit_z].
    + discriminate.
    + intro H. rewrite (IH _ _ _ _ H). destruct k; lia.
Qed.

Lemma interior_test_passes (M n : Z) :
  (n = Z.of_nat (Z.to_nat M) \/ n = Z.of_nat (Z.to_nat M) - 1 \/ (M <= 0 /\ n = 0))%Z ->
  (M - 1 <=? n)%Z = true.
Proof. intro H. apply Z.leb_le. lia. Qed.

Lemma log2_4 : log2 4 = 2%R.
Proof.
  unfold log2. replace 4%R with (2 * 2)%R by lra.
  rewrite ln_mult by lra. pose proof ln_2_pos. field. lra.
Qed.

(** What [iterateMandelbrot] returns, whatever [n] is: the [select] is
    handed the constant [false]. *)
Lemma iterateMandelbrot_value (uMaxIterations : Z) (z uv : vec2) :
  let out := Loop uv (Z.to_nat uMaxIterations) z 0 0 in
  iterateMandelbrot uMaxIterations z uv
  = (IZR (exit_n out)
     - (log2 (log2 (Q2R (dot (exit_z out) (exit_z out)))) + 4))%R.
Proof. intro out. unfold iterateMandelbrot, select. fold out. lra. Qed.

(** C4 (the code at [c = -2 + 0i], budget 100).  The orbit of [-2] stays at
    2, so the loop runs to completion with [n = 100], which meets
    [n >= uMaxIterations - 1]: the point is to be classified as in the set
    and given the iteration value 0 and the first palette colour.  The
    shader of [FractalEngine.ts] returns [100 - (log2 (log2 4) + 4) = 95]
    instead and draws the last palette colour: the flag that its interior
    test is meant to set stays [false].  The second variant, whose test is a
    [select] on the loop index, draws the same pixel black. *)
Theorem interior_test_sets_no_flag
  (uColor0 uColor1 uColor2 uColor3 uColor4 : vec3) :
  let c := Vec2 (-2) 0 in
  let out := Loop c (Z.to_nat 100) (Vec2 0 0) 0 0 in
  stoppedEarly out = false /\
  exit_z out = Vec2 2 0 /\
  exit_n out = 100%Z /\
  (100 - 1 <= exit_n out)%Z /\
  iterateMandelbrot 100 (Vec2 0 0) c = 95%R /\
  iterateMandelbrot 100 (Vec2 0 0) c <> 0%R /\
  mandelBrot 1 1 (Vec2 0 0) 100
    uColor0 uColor1 uColor2 uColor3 uColor4 c
  = Vec4 uColor4 1 /\
  Part000.mandelBrot 1 1 (Vec2 0 0) 100
    uColor0 uColor1 uColor2 uColor3 uColor4 c
  = Vec4 (Vec3 0 0 0) 1.
Proof.
  intros c out.
  assert (E : out = Exit (Vec2 2 0) 100 100 false)
    by (vm_compute; reflexivity).
  assert (Ec : samplePoint 1 1 (Vec2 0 0) c = c) by (vm_compute; reflexivity).
  assert (E' : Part000.Loop c (Z.to_nat 100) 0 (Vec2 0 0) 0 0
               = Exit (Vec2 2 0) 99 100 false) by (vm_compute; reflexivity).
  assert (Hd : Q2R (dot (Vec2 2 0) (Vec2 2 0)) = 4%R).
  { change (dot (Vec2 2 0) (Vec2 2 0)) with (4 # 1)%Q.
    unfold Q2R. simpl. lra. }
  assert (Hv : iterateMandelbrot 100 (Vec2 0 0) c = 95%R).
  { rewrite iterateMandelbrot_value. fold out. rewrite E.
    cbn [exit_z exit_n]. rewrite Hd, log2_4, log2_2. lra. }
  assert (Hone : (1.0 = 1)%R) by lra.
  rewrite E. cbn [stoppedEarly exit_z exit_n].
  split; [reflexivity|]. split; [reflexivity|]. split; [reflexivity|].
  split; [lia|]. split; [exact Hv|]. split; [rewrite Hv; lra|]. split.
  - unfold mandelBrot. rewrite Ec, Hv, Hone.
    unfold rgbColorFromIteration, gradient, maxIterations.
    rewrite !lessThanEqual_false by lra. reflexivity.
  - unfold Part000.mandelBrot.
    fold (samplePoint 1 1 (Vec2 0 0) c). rewrite Ec, E'.
    cbn [exit_n]. change (100 - 1 <=? 99)%Z with true.
    unfold select. now rewrite Hone.
Qed.

(** ** The animation driver: the zoom update *)

Lemma renderLoop_zoomingIn (currentTime : Q) (e : Engine) :
  zoomingIn (renderLoop currentTime e)
  = if Qle_bool (uZoom e) MIN_ZOOM then false
    else if Qle_bool MAX_ZOOM (uZoom e) then true
    else zoomingIn e.
Proof. reflexivity. Qed.

Lemma renderLoop_uZoom (currentTime : Q) (e : Engine) :
  uZoom (renderLoop currentTime e)
  = (uZoom e
     * (1 - frameDelta currentTime e * 0.0005
            * (if zoomingIn (renderLoop currentTime e) then 1 else -1)))%Q.
Proof. reflexivity. Qed.

Lemma Qle_bool_false (x y : Q) : Qle_bool x y = false <-> (y < x)%Q.
Proof.
  split; intro H.
  - apply Qnot_le_lt. intro Hle. apply Qle_bool_iff in Hle. congruence.
  - destruct (Qle_bool x y) eqn:E; [|reflexivity].
    apply Qle_bool_iff in E. exfalso. exact (Qlt_not_le _ _ H E).
Qed.

(** After the phase flip a driver that zooms in is above [MIN_ZOOM] and one
    that zooms out is below [MAX_ZOOM]. *)
Lemma phase_after_flip (currentTime : Q) (e : Engine) :
  if zoomingIn (renderLoop currentTime e)
  then (MIN_ZOOM < uZoom e)%Q
  else (uZoom e < MAX_ZOOM)%Q.
Proof.
  rewrite renderLoop_zoomingIn.
  destruct (Qle_bool (uZoom e) MIN_ZOOM) eqn:E1.
  - apply Qle_bool_iff in E1. cbv iota. unfold MIN_ZOOM, MAX_ZOOM in *. lra.
  - apply Qle_bool_false in E1.
    destruct (Qle_bool MAX_ZOOM (uZoom e)) eqn:E2.
    + exact E1.
    + apply Qle_bool_false in E2. destruct (zoomingIn e); assumption.
Qed.

(** C3.  In a frame the phase is settled first, from the zoom of the
    previous frame (zooming out when that zoom is at most [MIN_ZOOM],
    zooming in when it is at least [MAX_ZOOM], unchanged in between), and
    the new zoom is [zoom * (1 - delta * 0.0005 * direction)] with the
    direction [+1] of a driver that zooms in and [-1] of one that zooms
    out. *)
Theorem zoom_update_follows_phase_flip (currentTime : Q) (e : Engine) :
  let delta := frameDelta currentTime e in
  let e' := renderLoop currentTime e in
  let direction : Q := if zoomingIn e' then 1 else -1 in
  ((uZoom e <= MIN_ZOOM)%Q -> zoomingIn e' = false) /\
  ((MIN_ZOOM < uZoom e)%Q -> (MAX_ZOOM <= uZoom e)%Q -> zoomingIn e' = true) /\
  ((MIN_ZOOM < uZoom e)%Q -> (uZoom e < MAX_ZOOM)%Q ->
   zoomingIn e' = zoomingIn e) /\
  uZoom e' = (uZoom e * (1 - delta * 0.0005 * direction))%Q /\
  time e' = Some currentTime.
Proof.
  intros delta e' direction. unfold e'.
  split; [|split; [|split; [|split]]].
  - intro H. rewrite renderLoop_zoomingIn.
    apply Qle_bool_iff in H. now rewrite H.
  - intros H1 H2. rewrite renderLoop_zoomingIn.
    apply Qle_bool_false in H1. apply Qle_bool_iff in H2. now rewrite H1, H2.
  - intros H1 H2. rewrite renderLoop_zoomingIn.
    apply Qle_bool_false in H1. apply Qle_bool_false in H2. now rewrite H1, H2.
  - apply renderLoop_uZoom.
  - reflexivity.
Qed.

(** The scenario of the first frame: zoom 2.5, zooming in, delta 0. *)
Lemma zoom_update_follows_phase_flip_witness :
  let e' := renderLoop 0 newEngine in
  ((MIN_ZOOM < uZoom newEngine)%Q /\ (MAX_ZOOM <= uZoom newEngine)%Q) /\
  zoomingIn e' = true /\
  uZoom e' = (2.5 * (1 - 0 * 0.0005 * 1))%Q.
Proof.
  destruct (zoom_update_follows_phase_flip 0 newEngine)
    as (_ & Hin & _ & Hzoom & _).
  assert (H1 : (MIN_ZOOM < uZoom newEngine)%Q) by reflexivity.
  assert (H2 : (MAX_ZOOM <= uZoom newEngine)%Q) by (lazy; discriminate).
  split; [split; assumption|].
  split; [exact (Hin H1 H2) | exact Hzoom].
Defined.

(** ** The animation driver: the range of the zoom *)

Lemma reachable_frames (ok : Q -> Prop) (clock : list Q) :
  forall e,
    reachable ok e ->
    clock_ok ok e clock ->
    reachable ok
      (fold_left (fun e currentTime => renderLoop currentTime e) clock e).
Proof.
  induction clock as [|t rest IH]; intros e He Hok; cbn [fold_left].
  - exact He.
  - destruct Hok as [Ht Hrest]. apply IH; [|exact Hrest].
    now apply reachable_frame.
Qed.

Lemma iterationBudget_positive (zoom : Q) :
  (0 < zoom)%Q ->
  iterationBudget zoom = Finite (Zfloor (100 + zoomDepth zoom * 50)).
Proof.
  intro H. unfold iterationBudget.
  destruct (Qeq_bool zoom 0) eqn:E.
  - apply Qeq_bool_iff in E. lra.
  - destruct (Qle_bool zoom 0) eqn:E'; [|reflexivity].
    apply Qle_bool_iff in E'. lra.
Qed.

(** One frame keeps a positive zoom positive when [delta * 0.0005 < 1]. *)
Lemma renderLoop_keeps_positive (currentTime : Q) (e : Engine) :
  (0 <= frameDelta currentTime e)%Q ->
  (frameDelta currentTime e * 0.0005 < 1)%Q ->
  (0 < uZoom e)%Q ->
  (0 < uZoom (renderLoop currentTime e))%Q.
Proof.
  intros H0 H1 Hz. rewrite renderLoop_uZoom.
  set (d := frameDelta currentTime e) in *.
  destruct (zoomingIn (renderLoop currentTime e)); nra.
Qed.

(** C2, amended.  In every state that the animation reaches through frames
    whose deltas satisfy [0 <= delta] and [delta * 0.0005 < 1] (less than
    two seconds) the zoom is strictly above 0, so that the quotient
    [2.5 / zoom] of the iteration budget has a divisor other than 0 and is
    positive, and the budget is a finite number. *)
Theorem zoom_stays_positive (e : Engine) :
  reachable (fun delta => 0 <= delta /\ delta * 0.0005 < 1)%Q e ->
  (0 < uZoom e)%Q /\
  ~ (uZoom e == 0)%Q /\
  (0 < 2.5 / uZoom e)%Q /\
  (0 < Q2R (2.5 / uZoom e))%R /\
  exists m : Z, uMaxIterations e = Finite m.
Proof.
  intro Hr.
  assert (Hpos : (0 < uZoom e)%Q /\ exists m : Z, uMaxIterations e = Finite m).
  { induction Hr as [|e t Hr [IHz _] [H0 H1]].
    - split; [reflexivity | now exists 100%Z].
    - pose proof (renderLoop_keeps_positive t e H0 H1 IHz) as Hz.
      split; [exact Hz|].
      change (uMaxIterations (renderLoop t e))
        with (iterationBudget (uZoom (renderLoop t e))).
      rewrite (iterationBudget_positive _ Hz). eauto. }
  destruct Hpos as [Hz Hm].
  assert (Hq : (0 < 2.5 / uZoom e)%Q).
  { unfold Qdiv. apply Qmult_lt_0_compat; [reflexivity|].
    now apply Qinv_lt_0_compat. }
  split; [exact Hz|]. split; [lra|]. split; [exact Hq|]. split; [|exact Hm].
  rewrite <- RMicromega.Q2R_0. now apply Qlt_Rlt.
Qed.

Lemma zoom_stays_positive_witness :
  let e := frames [0; 16]%Q in
  reachable (fun delta => 0 <= delta /\ delta * 0.0005 < 1)%Q e /\
  (0 < uZoom e)%Q /\
  ~ (uZoom e == 0)%Q /\
  (0 < 2.5 / uZoom e)%Q /\
  (0 < Q2R (2.5 / uZoom e))%R /\
  exists m : Z, uMaxIterations e = Finite m.
Proof.
  intro e.
  assert (Hr : reachable (fun delta => 0 <= delta /\ delta * 0.0005 < 1)%Q e).
  { apply reachable_frames; [apply reachable_new|].
    repeat split; lazy; discriminate. }
  split; [exact Hr | exact (zoom_stays_positive e Hr)].
Defined.

(** C2, as stated, fails: a frame that comes two seconds after the first one
    multiplies the zoom by [1 - 2000 * 0.0005 = 0]; the zoom is 0, the
    quotient [2.5 / zoom] divides by zero and the budget is [Infinity]. *)
Lemma zoom_reaches_zero :
  let e := frames [0; 2000]%Q in
  reachable (fun delta => 0 <= delta)%Q e /\
  (uZoom e == 0)%Q /\
  uMaxIterations e = Infinity /\
  ~ (forall e' : Engine,
       reachable (fun delta => 0 <= delta)%Q e' -> (0 < uZoom e')%Q).
Proof.
  intro e.
  assert (Hr : reachable (fun delta => 0 <= delta)%Q e).
  { apply reachable_frames; [apply reachable_new|].
    repeat split; lazy; discriminate. }
  assert (Hz : (uZoom e == 0)%Q) by reflexivity.
  split; [exact Hr|]. split; [exact Hz|]. split; [reflexivity|].
  intro H. specialize (H e Hr). lra.
Qed.

(** One frame with a delta of at most [D]: a zoom within the widened range
    stays within it. *)
Lemma renderLoop_keeps_range (D : Q) (currentTime : Q) (e : Engine) :
  (D * 0.0005 < 1)%Q ->
  (0 <= frameDelta currentTime e <= D)%Q ->
  (MIN_ZOOM * (1 - D * 0.0005) <= uZoom e <= MAX_ZOOM * (1 + D * 0.0005))%Q ->
  (MIN_ZOOM * (1 - D * 0.0005) <= uZoom (renderLoop currentTime e)
   <= MAX_ZOOM * (1 + D * 0.0005))%Q.
Proof.
  intros HD Hd Hz. rewrite renderLoop_uZoom.
  pose proof (phase_after_flip currentTime e) as Hp.
  set (d := frameDelta currentTime e) in *.
  set (z := uZoom e) in *.
  unfold MIN_ZOOM, MAX_ZOOM in *.
  destruct (zoomingIn (renderLoop currentTime e)); split; nra.
Qed.

(** C5, amended.  From the initial state (zoom [MAX_ZOOM], zooming in) and
    for every sequence of frames whose deltas lie between 0 and a bound [D]
    with [D * 0.0005 < 1], the zoom stays within
    [MIN_ZOOM * (1 - D * 0.0005)] and [MAX_ZOOM * (1 + D * 0.0005)]: it
    passes a threshold by no more than the factor of one frame. *)
Theorem zoom_stays_within_overshoot (D : Q) (e : Engine) :
  (0 <= D)%Q ->
  (D * 0.0005 < 1)%Q ->
  reachable (fun delta => 0 <= delta <= D)%Q e ->
  (MIN_ZOOM * (1 - D * 0.0005) <= uZoom e <= MAX_ZOOM * (1 + D * 0.0005))%Q.
Proof.
  intros H0 HD Hr. induction Hr as [|e t Hr IH Hd].
  - change (uZoom newEngine) with MAX_ZOOM.
    unfold MIN_ZOOM, MAX_ZOOM. split; nra.
  - now apply (renderLoop_keeps_range D).
Qed.

Lemma zoom_stays_within_overshoot_witness :
  let e := frames [0; 1000]%Q in
  ((0 <= 1000)%Q /\ (1000 * 0.0005 < 1)%Q /\
   reachable (fun delta => 0 <= delta <= 1000)%Q e) /\
  (MIN_ZOOM * (1 - 1000 * 0.0005) <= uZoom e
   <= MAX_ZOOM * (1 + 1000 * 0.0005))%Q.
Proof.
  intro e.
  assert (H0 : (0 <= 1000)%Q) by (lazy; discriminate).
  assert (HD : (1000 * 0.0005 < 1)%Q) by reflexivity.
  assert (Hr : reachable (fun delta => 0 <= delta <= 1000)%Q e).
  { apply reachable_frames; [apply reachable_new|].
    repeat split; lazy; discriminate. }
  split; [repeat split; assumption|].
  exact (zoom_stays_within_overshoot 1000 e H0 HD Hr).
Defined.

(** C5, as stated, fails: with a frame every second the zoom is halved
    fourteen times while the driver zooms in, from 2.5 to
    [2.5 / 2 ^ 14 < MIN_ZOOM]; the flip comes only in the frame after. *)
Lemma zoom_overshoots_MIN_ZOOM :
  let e :=
    frames [0; 1000; 2000; 3000; 4000; 5000; 6000; 7000; 8000; 9000;
            10000; 11000; 12000; 13000; 14000]%Q in
  reachable (fun delta => 0 <= delta)%Q e /\
  zoomingIn e = true /\
  (uZoom e == 2.5 / 16384)%Q /\
  (uZoom e < MIN_ZOOM)%Q /\
  ~ (forall e' : Engine,
       reachable (fun delta => 0 <= delta)%Q e' ->
       (MIN_ZOOM <= uZoom e' <= MAX_ZOOM)%Q).
Proof.
  intro e.
  assert (Hr : reachable (fun delta => 0 <= delta)%Q e).
  { apply reachable_frames; [apply reachable_new|].
    repeat split; lazy; discriminate. }
  assert (Hz : (uZoom e < MIN_ZOOM)%Q) by reflexivity.
  split; [exact Hr|]. split; [reflexivity|]. split; [reflexivity|].
  split; [exact Hz|].
  intro H. destruct (H e Hr) as [Hlo _].
  exact (Qlt_not_le _ _ Hz Hlo).
Qed.

(** ** The animation driver: the iteration budget *)

Lemma Q2R_quotient (zoom : Q) :
  (0 < zoom)%Q -> Q2R (2.5 / zoom) = (2.5 / Q2R zoom)%R.
Proof.
  intro H. rewrite Q2R_div by lra.
  replace (Q2R 2.5) with 2.5%R by (unfold Q2R; simpl; lra). reflexivity.
Qed.

Lemma zoomDepth_antitone (zoom1 zoom2 : Q) :
  (0 < zoom1)%Q -> (zoom1 <= zoom2)%Q ->
  (zoomDepth zoom2 <= zoomDepth zoom1)%R.
Proof.
  intros H1 H12. unfold zoomDepth.
  rewrite !Q2R_quotient by lra.
  assert (R1 : (0 < Q2R zoom1)%R)
    by (rewrite <- RMicromega.Q2R_0; now apply Qlt_Rlt).
  assert (R12 : (Q2R zoom1 <= Q2R zoom2)%R) by now apply Qle_Rle.
  assert (Hinv : (/ Q2R zoom2 <= / Q2R zoom1)%R)
    by (apply Rinv_le_contravar; assumption).
  assert (Hpos : (0 < / Q2R zoom2)%R) by (apply Rinv_0_lt_compat; lra).
  apply log2_le; unfold Rdiv; nra.
Qed.

(** C6.  Every frame sets [uMaxIterations] to
    [floor (100 + log2 (2.5 / zoom) * 50)] for the zoom just computed; and
    of two zoom values between [MIN_ZOOM] and [MAX_ZOOM] the smaller one
    has a budget that is at least that of the larger one. *)
Theorem iteration_budget_grows_with_depth
  (currentTime : Q) (e : Engine) (zoom1 zoom2 : Q) :
  (MIN_ZOOM <= zoom1)%Q -> (zoom1 <= zoom2)%Q -> (zoom2 <= MAX_ZOOM)%Q ->
  uMaxIterations (renderLoop currentTime e)
  = iterationBudget (uZoom (renderLoop currentTime e)) /\
  iterationBudget zoom1
  = Finite (Zfloor (100 + log2 (2.5 / Q2R zoom1) * 50)) /\
  iterationBudget zoom2
  = Finite (Zfloor (100 + log2 (2.5 / Q2R zoom2) * 50)) /\
  (Zfloor (100 + log2 (2.5 / Q2R zoom2) * 50)
   <= Zfloor (100 + log2 (2.5 / Q2R zoom1) * 50))%Z.
Proof.
  intros Hmin H12 Hmax.
  assert (H1 : (0 < zoom1)%Q) by (unfold MIN_ZOOM in Hmin; lra).
  assert (H2 : (0 < zoom2)%Q) by lra.
  pose proof (zoomDepth_antitone zoom1 zoom2 H1 H12) as Hd.
  unfold zoomDepth in Hd. rewrite !Q2R_quotient in Hd by assumption.
  split; [reflexivity|].
  split; [|split].
  - rewrite (iterationBudget_positive _ H1). unfold zoomDepth.
    now rewrite Q2R_quotient.
  - rewrite (iterationBudget_positive _ H2). unfold zoomDepth.
    now rewrite Q2R_quotient.
  - apply Zfloor_le. lra.
Qed.

Lemma iteration_budget_grows_with_depth_witness :
  ((MIN_ZOOM <= 1)%Q /\ (1 <= 2.5)%Q /\ (2.5 <= MAX_ZOOM)%Q) /\
  uMaxIterations (renderLoop 0 newEngine)
  = iterationBudget (uZoom (renderLoop 0 newEngine)) /\
  iterationBudget 1
  = Finite (Zfloor (100 + log2 (2.5 / Q2R 1) * 50)) /\
  iterationBudget 2.5
  = Finite (Zfloor (100 + log2 (2.5 / Q2R 2.5) * 50)) /\
  (Zfloor (100 + log2 (2.5 / Q2R 2.5) * 50)
   <= Zfloor (100 + log2 (2.5 / Q2R 1) * 50))%Z.
Proof.
  assert (H1 : (MIN_ZOOM <= 1)%Q) by (lazy; discriminate).
  assert (H2 : (1 <= 2.5)%Q) by (lazy; discriminate).
  assert (H3 : (2.5 <= MAX_ZOOM)%Q) by (lazy; discriminate).
  split; [repeat split; assumption|].
  exact (iteration_budget_grows_with_depth 0 newEngine 1 2.5 H1 H2 H3).
Defined.

(** ** The colour gradient *)

Section Gradient.

Variables uColor0 uColor1 uColor2 uColor3 uColor4 : vec3.

Let color := gradient uColor0 uColor1 uColor2 uColor3 uColor4.

(** The band that the nested [select] picks. *)
Lemma gradient_band0 (t : R) :
  (t <= 0.16)%R ->
  color t = add3 uColor0 (mul3 (sub3 uColor1 uColor0) (t / 0.16)).
Proof.
  intro H. unfold color, gradient.
  now rewrite lessThanEqual_true by lra.
Qed.

Lemma gradient_band1 (t : R) :
  (0.16 < t <= 0.42)%R ->
  color t
  = add3 uColor1 (mul3 (sub3 uColor2 uColor1) ((t - 0.16) / (0.42 - 0.16))).
Proof.
  intro H. unfold color, gradient.
  rewrite lessThanEqual_false by lra.
  now rewrite lessThanEqual_true by lra.
Qed.

Lemma gradient_band2 (t : R) :
  (0.42 < t <= 0.6425)%R ->
  color t
  = add3 uColor2
      (mul3 (sub3 uColor3 uColor2) ((t - 0.42) / (0.6425 - 0.42))).
Proof.
  intro H. unfold color, gradient.
  rewrite !lessThanEqual_false by lra.
  now rewrite lessThanEqual_true by lra.
Qed.

Lemma gradient_band3 (t : R) :
  (0.6425 < t <= 0.8575)%R ->
  color t
  = add3 uColor3
      (mul3 (sub3 uColor4 uColor3) ((t - 0.6425) / (0.8575 - 0.6425))).
Proof.
  intro H. unfold color, gradient.
  rewrite !lessThanEqual_false by lra.
  now rewrite lessThanEqual_true by lra.
Qed.

Lemma gradient_band4 (t : R) : (0.8575 < t)%R -> color t = uColor4.
Proof.
  intro H. unfold color, gradient.
  now rewrite !lessThanEqual_false by lra.
Qed.

(** At its upper end a band has reached its second colour. *)
Lemma add3_mul3_one (p q : vec3) (k : R) :
  k = 1%R -> add3 p (mul3 (sub3 q p) k) = q.
Proof.
  intros ->. destruct p, q. unfold add3, mul3, sub3. cbn [cr cg cb].
  f_equal; lra.
Qed.

Lemma gradient_at_016 : color 0.16%R = uColor1.
Proof. rewrite gradient_band0 by lra. apply add3_mul3_one. lra. Qed.

Lemma gradient_at_042 : color 0.42%R = uColor2.
Proof. rewrite gradient_band1 by lra. apply add3_mul3_one. lra. Qed.

Lemma gradient_at_06425 : color 0.6425%R = uColor3.
Proof. rewrite gradient_band2 by lra. apply add3_mul3_one. lra. Qed.

Lemma gradient_at_08575 : color 0.8575%R = uColor4.
Proof. rewrite gradient_band3 by lra. apply add3_mul3_one. lra. Qed.

End Gradient.

(** A function that is affine on an interval to the right of [t0] tends to
    its value at the left end. *)
Lemma affine_limit_from_above (f : R -> R) (t0 gap a s : R) :
  (0 < gap)%R ->
  (forall t, (t0 < t < t0 + gap)%R -> f t = (a + s * (t - t0))%R) ->
  limit1_in f (fun t => t0 < t)%R a t0.
Proof.
  intros Hgap Hf eps Heps.
  assert (Hs : (0 < Rabs s + 1)%R) by (pose proof (Rabs_pos s); lra).
  set (q := (eps / (Rabs s + 1))%R).
  assert (Hq : (0 < q)%R) by (apply Rdiv_lt_0_compat; lra).
  assert (Hqs : (q * (Rabs s + 1) = eps)%R) by (unfold q; field; lra).
  exists (Rmin gap q). split.
  - apply Rmin_glb_lt; lra.
  - intros t [Ht Hd]. cbn [dist R_met Base] in *. unfold R_dist in *.
    assert (Hd' : (Rabs (t - t0) = t - t0)%R) by (apply Rabs_pos_eq; lra).
    rewrite Hd' in Hd.
    pose proof (Rmin_l gap q). pose proof (Rmin_r gap q).
    rewrite Hf by lra.
    replace (a + s * (t - t0) - a)%R with (s * (t - t0))%R by ring.
    rewrite Rabs_mult, Hd'.
    pose proof (Rabs_pos s). nra.
Qed.

(** C8.  For every palette the gradient is continuous from above at each of
    its four breakpoints: the colour of the band below the breakpoint, taken
    at the breakpoint, is the limit of the colours of the band above it. *)
Theorem gradient_continuous_at_breakpoints
  (uColor0 uColor1 uColor2 uColor3 uColor4 : vec3) :
  let color := gradient uColor0 uColor1 uColor2 uColor3 uColor4 in
  (color 0.16%R
   = add3 uColor0 (mul3 (sub3 uColor1 uColor0) (0.16 / 0.16)%R) /\
   continuous_from_above color 0.16%R) /\
  (color 0.42%R
   = add3 uColor1
       (mul3 (sub3 uColor2 uColor1) ((0.42 - 0.16) / (0.42 - 0.16))%R) /\
   continuous_from_above color 0.42%R) /\
  (color 0.6425%R
   = add3 uColor2
       (mul3 (sub3 uColor3 uColor2) ((0.6425 - 0.42) / (0.6425 - 0.42))%R) /\
   continuous_from_above color 0.6425%R) /\
  (color 0.8575%R
   = add3 uColor3
       (mul3 (sub3 uColor4 uColor3)
          ((0.8575 - 0.6425) / (0.8575 - 0.6425))%R) /\
   continuous_from_above color 0.8575%R).
Proof.
  intro color. unfold color.
  split; [|split; [|split]]; (split; [|unfold continuous_from_above]).
  - apply gradient_band0. lra.
  - rewrite gradient_at_016.
    repeat split;
      [ apply affine_limit_from_above
          with (gap := 0.26%R) (s := ((cr uColor2 - cr uColor1) / 0.26)%R)
      | apply affine_limit_from_above
          with (gap := 0.26%R) (s := ((cg uColor2 - cg uColor1) / 0.26)%R)
      | apply affine_limit_from_above
          with (gap := 0.26%R) (s := ((cb uColor2 - cb uColor1) / 0.26)%R) ];
      try lra; intros t Ht; rewrite gradient_band1 by lra;
      cbn [add3 mul3 sub3 cr cg cb]; nra.
  - apply gradient_band1. lra.
  - rewrite gradient_at_042.
    repeat split;
      [ apply affine_limit_from_above
          with (gap := 0.2225%R) (s := ((cr uColor3 - cr uColor2) / 0.2225)%R)
      | apply affine_limit_from_above
          with (gap := 0.2225%R) (s := ((cg uColor3 - cg uColor2) / 0.2225)%R)
      | apply affine_limit_from_above
          with (gap := 0.2225%R) (s := ((cb uColor3 - cb uColor2) / 0.2225)%R) ];
      try lra; intros t Ht; rewrite gradient_band2 by lra;
      cbn [add3 mul3 sub3 cr cg cb]; nra.
  - apply gradient_band2. lra.
  - rewrite gradient_at_06425.
    repeat split;
      [ apply affine_limit_from_above
          with (gap := 0.215%R) (s := ((cr uColor4 - cr uColor3) / 0.215)%R)
      | apply affine_limit_from_above
          with (gap := 0.215%R) (s := ((cg uColor4 - cg uColor3) / 0.215)%R)
      | apply affine_limit_from_above
          with (gap := 0.215%R) (s := ((cb uColor4 - cb uColor3) / 0.215)%R) ];
      try lra; intros t Ht; rewrite gradient_band3 by lra;
      cbn [add3 mul3 sub3 cr cg cb]; nra.
  - apply gradient_band3. lra.
  - rewrite gradient_at_08575.
    repeat split;
      apply affine_limit_from_above with (gap := 1%R) (s := 0%R);
      try lra; intros t Ht; rewrite gradient_band4 by lra; lra.
Qed.

(** ** The resize handler, in binary64 *)

Module Binary64Facts.

Import Floats Binary64.
Local Open Scope float_scope.
#[local] Set Warnings "-inexact-float".

Lemma nonfinite_is_finite (x : float) :
  nonfinite (Prim2SF x) -> is_finite x = false.
Proof.
  intro H. rewrite <- (SF2Prim_Prim2SF x).
  destruct (Prim2SF x) as [s|s| |s m e]; try contradiction.
  - destruct s; vm_compute; reflexivity.
  - vm_compute; reflexivity.
Qed.

Lemma mul_nonfinite_l (x y : float) :
  nonfinite (Prim2SF x) -> nonfinite (Prim2SF (x * y)).
Proof.
  intro H. rewrite mul_spec. unfold SF64mul, SFmul.
  destruct (Prim2SF x); try contradiction; destruct (Prim2SF y); exact I.
Qed.

Lemma mul_nonfinite_r (x y : float) :
  nonfinite (Prim2SF y) -> nonfinite (Prim2SF (x * y)).
Proof.
  intro H. rewrite mul_spec. unfold SF64mul, SFmul.
  destruct (Prim2SF y); try contradiction; destruct (Prim2SF x); exact I.
Qed.

Lemma add_nonfinite_l (x y : float) :
  nonfinite (Prim2SF x) -> nonfinite (Prim2SF (x + y)).
Proof.
  intro H. rewrite add_spec. unfold SF64add, SFadd.
  destruct (Prim2SF x) as [| [|] | |]; try contradiction;
    destruct (Prim2SF y) as [| [|] | |]; exact I.
Qed.

(** A positive number divided by a zero is an infinity. *)
Lemma div_by_zero (w h : float) :
  (0 <? w) = true -> (h =? 0) = true ->
  exists s, Prim2SF (w / h) = S754_infinity s.
Proof.
  rewrite ltb_spec, eqb_spec, div_spec.
  change (Prim2SF 0) with (S754_zero false).
  unfold SF64div, SFdiv, SFltb, SFeqb, SFcompare.
  destruct (Prim2SF w) as [s|s| |s m e];
    destruct (Prim2SF h) as [s'|s'| |s' m' e'];
    try discriminate; try (destruct s'; discriminate);
    try (destruct s; discriminate); eauto.
Qed.

Lemma fold_resizeEntry_last (entries : list contentRect)
  (entry : contentRect) (v : Viewport) :
  fold_left resizeEntry (entries ++ [entry]) v
  = resizeEntry (fold_left resizeEntry entries v) entry.
Proof. now rewrite fold_left_app. Qed.

(** C10.  The resize handler of either variant leaves in [uAspect] the
    quotient [width / height] of the last notification it is given, with
    no test of the operands.  For a positive width and a height of zero
    that quotient is not finite, and neither is the first coordinate of
    the sample point that [mandelBrot] computes from it, whatever the
    pixel, the zoom and the centre. *)
Theorem onResize_sets_aspect_unguarded
  (devicePixelRatio : float) (entries : list contentRect)
  (entry : contentRect) (v : Viewport) :
  let aspect := width entry / height entry in
  uAspect (onResize devicePixelRatio (entries ++ [entry]) v) = aspect /\
  uAspect (onResize_part000 (entries ++ [entry]) v) = aspect /\
  ((0 <? width entry) = true -> (height entry =? 0) = true ->
   is_finite aspect = false /\
   forall (uZoom : float) (uStart positionLocal : float * float),
     is_finite (fst (samplePoint aspect uZoom uStart positionLocal))
     = false).
Proof.
  intro aspect. split; [|split].
  - unfold onResize. cbn [uAspect]. now rewrite fold_resizeEntry_last.
  - unfold onResize_part000. now rewrite fold_resizeEntry_last.
  - intros Hw Hh.
    destruct (div_by_zero _ _ Hw Hh) as [s Hs]. fold aspect in Hs.
    assert (Hn : nonfinite (Prim2SF aspect)) by (rewrite Hs; exact I).
    split.
    + now apply nonfinite_is_finite.
    + intros uZoom uStart positionLocal. unfold samplePoint. cbn [fst snd].
      apply nonfinite_is_finite, add_nonfinite_l, mul_nonfinite_l,
        mul_nonfinite_r, Hn.
Qed.

(** The notification [{width: 800, height: 0}]. *)
Lemma onResize_sets_aspect_unguarded_witness :
  let entry := {| width := 800; height := 0 |} in
  let v := {| rendererSize := (300, 150); pixelRatio := 1; uAspect := 1 |} in
  ((0 <? width entry) = true /\ (height entry =? 0) = true) /\
  uAspect (onResize 1 [entry] v) = infinity /\
  uAspect (onResize_part000 [entry] v) = infinity /\
  is_finite (width entry / height entry) = false /\
  is_finite
    (fst (samplePoint (width entry / height entry) 2.5
            (-0.743643887037151, 0.13182590420533) (0.5, 0.5)))
  = false.
Proof.
  intros entry v.
  assert (Hw : (0 <? width entry) = true) by reflexivity.
  assert (Hh : (height entry =? 0) = true) by reflexivity.
  destruct (onResize_sets_aspect_unguarded 1 [] entry v)
    as (Ha & Hb & Hc).
  destruct (Hc Hw Hh) as [Hf Hs].
  split; [split; assumption|].
  split; [exact Ha|]. split; [exact Hb|]. split; [exact Hf|].
  apply Hs.
Defined.

(** The scenario [{width: 800, height: 400}]. *)
Example onResize_800_400 :
  uAspect
    (onResize 1 [{| width := 800; height := 400 |}]
       {| rendererSize := (300, 150); pixelRatio := 1; uAspect := 1 |})
  = 2.
Proof. reflexivity. Qed.

(** The frames that the exact reading uses against the range of the zoom
    do the same in binary64: a delta of two seconds gives the zoom 0 and
    the quotient [Infinity], and a zoom just above [MIN_ZOOM] is halved
    below it by a delta of one second. *)
Example zoomUpdate_two_seconds :
  zoomUpdate 2000 true 2.5 = (true, 0) /\ 2.5 / 0 = infinity.
Proof. split; reflexivity. Qed.

Example zoomUpdate_overshoot :
  zoomUpdate 1000 true (2.5 / 8192) = (true, 2.5 / 16384) /\
  (2.5 / 16384 <? MIN_ZOOM) = true.
Proof. split; reflexivity. Qed.

End Binary64Facts.

(** * Further properties of the code *)

(** ** The escape loop: what [n] counts *)

(** The iterates counted by [n] lie within the bailout radius. *)
Lemma Loop_counted_within (uv : vec2) (k : nat) :
  forall z n e j,
    (1 <= j)%nat ->
    (n + Z.of_nat j <= exit_n (Loop uv k z n e))%Z ->
    (dot (orbit uv z j) (orbit uv z j) <= b * b)%Q.
Proof.
  induction k as [|k IH]; intros z n e j Hj Hn;
    cbn [Loop trips exit_n stoppedEarly exit_z] in Hn.
  - lia.
  - destruct (greaterThan _ _) eqn:G;
      cbn [Loop trips exit_n stoppedEarly exit_z] in Hn.
    + lia.
    + destruct j as [|[|j]]; [lia| |].
      * now apply greaterThan_false.
      * rewrite orbit_shift. apply (IH _ (n + 1)%Z (S e)); lia.
Qed.

Lemma Loop_exit_n_bounds (uv : vec2) (k : nat) :
  forall z n e,
    (n <= exit_n (Loop uv k z n e) <= n + Z.of_nat k)%Z.
Proof.
  induction k as [|k IH]; intros z n e;
    cbn [Loop trips exit_n stoppedEarly exit_z].
  - lia.
  - destruct (greaterThan _ _);
      cbn [Loop trips exit_n stoppedEarly exit_z].
    + lia.
    + specialize (IH (add2 (Vec2 (vx z * vx z - vy z * vy z)
                                 (2 * vx z * vy z)) uv) (n + 1)%Z (S e)).
      lia.
Qed.

(** X1.  The escape loop of [iterateMandelbrot], started at [z = 0]: the
    final [z] is the iterate numbered by the passes entered; [n] lies
    between 0 and the budget; the iterates [z_1 .. z_n] are within the
    bailout radius; a loop that stopped early did so on the iterate
    [z_(n+1)], which is outside it; a loop that ran to completion counted
    every pass of the budget. *)
Theorem escape_count_characterised (uv : vec2) (uMaxIterations : Z) :
  let out := Loop uv (Z.to_nat uMaxIterations) (Vec2 0 0) 0 0 in
  let z := orbit uv (Vec2 0 0) in
  exit_z out = z (trips out) /\
  (0 <= exit_n out <= Z.max 0 uMaxIterations)%Z /\
  (forall j : nat,
     (1 <= j)%nat -> (Z.of_nat j <= exit_n out)%Z ->
     (dot (z j) (z j) <= b * b)%Q) /\
  (stoppedEarly out = true ->
     Z.of_nat (trips out) = (exit_n out + 1)%Z /\
     (exit_n out < uMaxIterations)%Z /\
     (b * b < dot (z (trips out)) (z (trips out)))%Q) /\
  (stoppedEarly out = false ->
     Z.of_nat (trips out) = exit_n out /\
     exit_n out = Z.max 0 uMaxIterations).
Proof.
  intros out z.
  assert (Hz : exit_z out = z (trips out)).
  { unfold out, z. rewrite Loop_exit_orbit. now rewrite Nat.sub_0_r. }
  split; [exact Hz|]. split; [|split; [|split]].
  - pose proof (Loop_exit_n_bounds uv (Z.to_nat uMaxIterations)
                  (Vec2 0 0) 0%Z 0%nat) as H.
    fold out in H. lia.
  - intros j Hj Hn. unfold z.
    apply (Loop_counted_within uv (Z.to_nat uMaxIterations)
             (Vec2 0 0) 0%Z 0%nat); [exact Hj|]. fold out. lia.
  - intro Hs. destruct (Loop_stopped uv _ _ _ _ Hs) as (Hn & Ht & Hesc).
    fold out in Hn, Ht, Hesc. rewrite <- Hz.
    pose proof (Loop_exit_n_bounds uv (Z.to_nat uMaxIterations)
                  (Vec2 0 0) 0%Z 0%nat) as Hb.
    fold out in Hb.
    split; [lia|]. split; [lia | exact Hesc].
  - intro Hs. destruct (Loop_completed uv _ _ _ _ Hs) as (Ht & Hn).
    fold out in Hn, Ht. split; lia.
Qed.

Lemma escape_count_characterised_witness :
  let out := Loop (Vec2 2 0) (Z.to_nat 100) (Vec2 0 0) 0 0 in
  let z := orbit (Vec2 2 0) (Vec2 0 0) in
  stoppedEarly out = true /\
  Z.of_nat (trips out) = (exit_n out + 1)%Z /\
  (exit_n out < 100)%Z /\
  (b * b < dot (z (trips out)) (z (trips out)))%Q /\
  (dot (z 3%nat) (z 3%nat) <= b * b)%Q.
Proof.
  intros out z.
  destruct (escape_count_characterised (Vec2 2 0) 100)
    as (_ & _ & Hin & Hstop & _).
  assert (Hs : stoppedEarly out = true) by (vm_compute; reflexivity).
  assert (H3 : (Z.of_nat 3 <= exit_n out)%Z) by (vm_compute; discriminate).
  destruct (Hstop Hs) as (Ht & Hn & Hesc).
  split; [exact Hs|]. split; [exact Ht|]. split; [exact Hn|].
  split; [exact Hesc|].
  exact (Hin 3%nat ltac:(lia) H3).
Defined.

(** ** The escape loop: a larger budget *)

Lemma Loop_more_passes (uv : vec2) (k : nat) :
  forall k' z n e,
    stoppedEarly (Loop uv k z n e) = true ->
    (k <= k')%nat ->
    Loop uv k' z n e = Loop uv k z n e.
Proof.
  induction k as [|k IH]; intros k' z n e Hs Hk.
  - discriminate.
  - destruct k' as [|k']; [lia|].
    cbn [Loop] in *. destruct (greaterThan _ _).
    + reflexivity.
    + apply IH; [exact Hs | lia].
Qed.

(** X2.  A point whose loop stops early under the budget [M] leaves the
    same [z], [n] and pass count under every larger budget; when it stopped
    before the last pass ([n < M - 1]) [iterateMandelbrot] returns the same
    value under the larger budget. *)
Theorem larger_budget_keeps_escaped_points (uv : vec2) (M M' : Z) :
  (M <= M')%Z ->
  stoppedEarly (Loop uv (Z.to_nat M) (Vec2 0 0) 0 0) = true ->
  Loop uv (Z.to_nat M') (Vec2 0 0) 0 0 = Loop uv (Z.to_nat M) (Vec2 0 0) 0 0 /\
  ((exit_n (Loop uv (Z.to_nat M) (Vec2 0 0) 0 0) < M - 1)%Z ->
   iterateMandelbrot M' (Vec2 0 0) uv = iterateMandelbrot M (Vec2 0 0) uv).
Proof.
  intros HM Hs.
  assert (E : Loop uv (Z.to_nat M') (Vec2 0 0) 0 0
              = Loop uv (Z.to_nat M) (Vec2 0 0) 0 0)
    by (apply Loop_more_passes; [exact Hs | lia]).
  split; [exact E|].
  intro Hn. unfold iterateMandelbrot. rewrite E. reflexivity.
Qed.

Lemma larger_budget_keeps_escaped_points_witness :
  ((100 <= 751)%Z /\
   stoppedEarly (Loop (Vec2 2 0) (Z.to_nat 100) (Vec2 0 0) 0 0) = true /\
   (exit_n (Loop (Vec2 2 0) (Z.to_nat 100) (Vec2 0 0) 0 0) < 100 - 1)%Z) /\
  Loop (Vec2 2 0) (Z.to_nat 751) (Vec2 0 0) 0 0
  = Loop (Vec2 2 0) (Z.to_nat 100) (Vec2 0 0) 0 0 /\
  iterateMandelbrot 751 (Vec2 0 0) (Vec2 2 0)
  = iterateMandelbrot 100 (Vec2 0 0) (Vec2 2 0).
Proof.
  assert (H1 : (100 <= 751)%Z) by lia.
  assert (H2 : stoppedEarly (Loop (Vec2 2 0) (Z.to_nat 100) (Vec2 0 0) 0 0)
               = true) by (vm_compute; reflexivity).
  assert (H3 : (exit_n (Loop (Vec2 2 0) (Z.to_nat 100) (Vec2 0 0) 0 0)
                < 100 - 1)%Z) by (vm_compute; reflexivity).
  destruct (larger_budget_keeps_escaped_points (Vec2 2 0) 100 751 H1 H2)
    as [E Hv].
  split; [repeat split; assumption|].
  split; [exact E | exact (Hv H3)].
Defined.

(** ** The escape loop: the mirror image *)

Lemma Qmult_opp_opp (y : Q) : (- y * - y)%Q = (y * y)%Q.
Proof.
  destruct y as [n d]. unfold Qmult, Qopp. cbn [Qnum Qden].
  f_equal. apply Z.mul_opp_opp.
Qed.

Lemma Qplus_opp_opp (p q : Q) : (- p + - q)%Q = (- (p + q))%Q.
Proof.
  destruct p as [pn pd], q as [qn qd]. unfold Qplus, Qopp. cbn [Qnum Qden].
  f_equal. ring.
Qed.

Lemma Qmult_opp_r (p q : Q) : (p * - q)%Q = (- (p * q))%Q.
Proof.
  destruct p as [pn pd], q as [qn qd]. unfold Qmult, Qopp. cbn [Qnum Qden].
  f_equal. ring.
Qed.

Lemma dot_conjugate (z : vec2) : dot (conjugate z) (conjugate z) = dot z z.
Proof. unfold dot, conjugate. cbn [vx vy]. now rewrite Qmult_opp_opp. Qed.

(** One pass of the recurrence commutes with the mirror image. *)
Lemma step_conjugate (z uv : vec2) :
  add2 (Vec2 (vx (conjugate z) * vx (conjugate z)
              - vy (conjugate z) * vy (conjugate z))
             (2 * vx (conjugate z) * vy (conjugate z)))
       (conjugate uv)
  = conjugate
      (add2 (Vec2 (vx z * vx z - vy z * vy z) (2 * vx z * vy z)) uv).
Proof.
  unfold conjugate, add2. cbn [vx vy].
  rewrite Qmult_opp_opp, Qmult_opp_r, Qplus_opp_opp. reflexivity.
Qed.

Lemma Loop_conjugate (uv : vec2) (k : nat) :
  forall z n e,
    Loop (conjugate uv) k (conjugate z) n e
    = Exit (conjugate (exit_z (Loop uv k z n e)))
           (exit_n (Loop uv k z n e))
           (trips (Loop uv k z n e))
           (stoppedEarly (Loop uv k z n e)).
Proof.
  induction k as [|k IH]; intros z n e; cbn [Loop].
  - reflexivity.
  - rewrite step_conjugate, dot_conjugate.
    destruct (greaterThan _ _); [reflexivity | apply IH].
Qed.

Lemma Part000_Loop_conjugate (scaled : vec2) (k : nat) :
  forall i z it e,
    Part000.Loop (conjugate scaled) k i (conjugate z) it e
    = Exit (conjugate (exit_z (Part000.Loop scaled k i z it e)))
           (exit_n (Part000.Loop scaled k i z it e))
           (trips (Part000.Loop scaled k i z it e))
           (stoppedEarly (Part000.Loop scaled k i z it e)).
Proof.
  induction k as [|k IH]; intros i z it e; cbn [Part000.Loop].
  - reflexivity.
  - rewrite dot_conjugate.
    destruct (greaterThan _ _); [reflexivity|].
    change (Vec2 (vx (conjugate z) * vx (conjugate z)
                  - vy (conjugate z) * vy (conjugate z)
                  + vx (conjugate scaled))
                 (2 * vx (conjugate z) * vy (conjugate z)
                  + vy (conjugate scaled)))
      with (add2 (Vec2 (vx (conjugate z) * vx (conjugate z)
                        - vy (conjugate z) * vy (conjugate z))
                       (2 * vx (conjugate z) * vy (conjugate z)))
                 (conjugate scaled)).
    rewrite step_conjugate.
    exact (IH (i + 1)%Z
             (add2 (Vec2 (vx z * vx z - vy z * vy z) (2 * vx z * vy z)) scaled)
             i (S e)).
Qed.

(** X3.  The escape loop is symmetric in the real axis: for the mirror image
    of a sample point both variants count the same [n], enter the same
    number of passes, stop or run to completion alike and end on the mirror
    image of [z]; so [iterateMandelbrot] returns the same value for both
    points. *)
Theorem escape_loop_mirror_symmetric (uv : vec2) (uMaxIterations : Z) :
  let k := Z.to_nat uMaxIterations in
  let zero := Vec2 0 0 in
  Loop (conjugate uv) k zero 0 0
  = Exit (conjugate (exit_z (Loop uv k zero 0 0)))
         (exit_n (Loop uv k zero 0 0))
         (trips (Loop uv k zero 0 0))
         (stoppedEarly (Loop uv k zero 0 0)) /\
  Part000.Loop (conjugate uv) k 0 zero 0 0
  = Exit (conjugate (exit_z (Part000.Loop uv k 0 zero 0 0)))
         (exit_n (Part000.Loop uv k 0 zero 0 0))
         (trips (Part000.Loop uv k 0 zero 0 0))
         (stoppedEarly (Part000.Loop uv k 0 zero 0 0)) /\
  iterateMandelbrot uMaxIterations zero (conjugate uv)
  = iterateMandelbrot uMaxIterations zero uv.
Proof.
  intros k zero.
  assert (E : Loop (conjugate uv) k zero 0 0
              = Exit (conjugate (exit_z (Loop uv k zero 0 0)))
                     (exit_n (Loop uv k zero 0 0))
                     (trips (Loop uv k zero 0 0))
                     (stoppedEarly (Loop uv k zero 0 0)))
    by apply (Loop_conjugate uv k zero).
  split; [exact E|]. split.
  - apply (Part000_Loop_conjugate uv k 0%Z zero).
  - unfold iterateMandelbrot. fold k. fold zero. rewrite E.
    cbn [exit_z exit_n]. now rewrite dot_conjugate.
Qed.

(** ** The escape loop: points that never escape, points that escape at once *)

Lemma Qsquare_nonneg (x : Q) : (0 <= x * x)%Q.
Proof. nra. Qed.

(** The closed disc of radius 1/2 is kept by the recurrence when [c] lies in
    the closed disc of radius 1/4. *)
Lemma disc_step (z c : vec2) :
  (dot z z <= 1 # 4)%Q ->
  (dot c c <= 1 # 16)%Q ->
  (dot (add2 (Vec2 (vx z * vx z - vy z * vy z) (2 * vx z * vy z)) c)
       (add2 (Vec2 (vx z * vx z - vy z * vy z) (2 * vx z * vy z)) c)
   <= 1 # 4)%Q.
Proof.
  unfold dot, add2. cbn [vx vy].
  destruct z as [x y], c as [p q]. cbn [vx vy]. intros Hz Hc.
  assert (Hw : ((x * x - y * y) * (x * x - y * y)
                + (2 * x * y) * (2 * x * y) <= 1 # 16)%Q).
  { assert (H0 : (0 <= x * x + y * y)%Q) by nra.
    assert (E : ((x * x - y * y) * (x * x - y * y)
                 + (2 * x * y) * (2 * x * y)
                 == (x * x + y * y) * (x * x + y * y))%Q) by ring.
    rewrite E. nra. }
  revert Hw. generalize (x * x - y * y)%Q (2 * x * y)%Q. intros u v Hw.
  pose proof (Qsquare_nonneg (u - p)).
  pose proof (Qsquare_nonneg (v - q)).
  lra.
Qed.

Lemma Loop_disc (c : vec2) (k : nat) :
  (dot c c <= 1 # 16)%Q ->
  forall z n e,
    (dot z z <= 1 # 4)%Q ->
    stoppedEarly (Loop c k z n e) = false.
Proof.
  intro Hc. induction k as [|k IH]; intros z n e Hz; cbn [Loop].
  - reflexivity.
  - pose proof (disc_step z c Hz Hc) as Hstep.
    replace (greaterThan _ _) with false.
    + now apply IH.
    + symmetry. apply greaterThan_false. unfold b. lra.
Qed.

Lemma Part000_Loop_disc (c : vec2) (k : nat) :
  (dot c c <= 1 # 16)%Q ->
  forall i z it e,
    (dot z z <= 1 # 4)%Q ->
    stoppedEarly (Part000.Loop c k i z it e) = false.
Proof.
  intro Hc. induction k as [|k IH]; intros i z it e Hz; cbn [Part000.Loop].
  - reflexivity.
  - replace (greaterThan (dot z z) 4.0) with false
      by (symmetry; apply greaterThan_false; lra).
    apply IH. exact (disc_step z c Hz Hc).
Qed.

Lemma Loop_disc_exit (c : vec2) (k : nat) :
  (dot c c <= 1 # 16)%Q ->
  forall z n e,
    (dot z z <= 1 # 4)%Q ->
    (dot (exit_z (Loop c k z n e)) (exit_z (Loop c k z n e)) <= 1 # 4)%Q.
Proof.
  intro Hc. induction k as [|k IH]; intros z n e Hz; cbn [Loop].
  - exact Hz.
  - pose proof (disc_step z c Hz Hc) as Hstep.
    replace (greaterThan _ _) with false.
    + now apply IH.
    + symmetry. apply greaterThan_false. unfold b. lra.
Qed.

(** X4.  A pixel whose sample point lies in the closed disc of radius 1/4
    about the origin ([|c|^2 <= 1/16]) never leaves the bailout radius: for
    every budget the loop of either variant runs to completion; in
    [FractalEngine.ts] [n] reaches the budget and the final [z] is still
    within the radius 1/2; the other variant draws the pixel black. *)
Theorem small_points_never_escape
  (uZoom uAspect : Q) (uStart : vec2) (uMaxIterations : Z)
  (uColor0 uColor1 uColor2 uColor3 uColor4 : vec3) (positionLocal : vec2) :
  let c := samplePoint uZoom uAspect uStart positionLocal in
  let out := Loop c (Z.to_nat uMaxIterations) (Vec2 0 0) 0 0 in
  (dot c c <= 1 # 16)%Q ->
  stoppedEarly out = false /\
  exit_n out = Z.max 0 uMaxIterations /\
  (dot (exit_z out) (exit_z out) <= 1 # 4)%Q /\
  stoppedEarly (Part000.Loop c (Z.to_nat uMaxIterations) 0 (Vec2 0 0) 0 0)
  = false /\
  Part000.mandelBrot uZoom uAspect uStart uMaxIterations
    uColor0 uColor1 uColor2 uColor3 uColor4 positionLocal
  = Vec4 (Vec3 0 0 0) 1.
Proof.
  intros c out Hc.
  assert (H0 : (dot (Vec2 0 0) (Vec2 0 0) <= 1 # 4)%Q) by (cbn; discriminate).
  pose proof (Loop_disc c (Z.to_nat uMaxIterations) Hc (Vec2 0 0) 0%Z 0%nat H0)
    as Hs.
  pose proof (Loop_disc_exit c (Z.to_nat uMaxIterations) Hc
                (Vec2 0 0) 0%Z 0%nat H0) as Hz.
  pose proof (Part000_Loop_disc c (Z.to_nat uMaxIterations) Hc
                0%Z (Vec2 0 0) 0%Z 0%nat H0) as Hs'.
  fold out in Hs, Hz.
  assert (Ht' : (uMaxIterations - 1
                 <=? exit_n (Part000.Loop c (Z.to_nat uMaxIterations) 0
                               (Vec2 0 0) 0 0))%Z = true).
  { apply interior_test_passes.
    pose proof (Part000_Loop_completed c _ _ _ _ _ Hs') as Hn.
    destruct (Z.to_nat uMaxIterations) eqn:E; lia. }
  assert (Hone : (1.0 = 1)%R) by lra.
  split; [exact Hs|]. split; [|split; [exact Hz|]]. 2: split; [exact Hs'|].
  - destruct (Loop_completed c _ _ _ _ Hs) as [_ Hn]. fold out in Hn. lia.
  - unfold Part000.mandelBrot.
    fold (samplePoint uZoom uAspect uStart positionLocal). fold c.
    rewrite Ht'. unfold select. now rewrite Hone.
Qed.

(** A pixel three tenths to the right of the centre of the initial view. *)
Lemma small_points_never_escape_witness :
  let uStart := Vec2 (-0.743643887037151) 0.13182590420533 in
  let positionLocal := Vec2 0.3 0 in
  let c := samplePoint 2.5 1 uStart positionLocal in
  (dot c c <= 1 # 16)%Q /\
  stoppedEarly (Loop c (Z.to_nat 751) (Vec2 0 0) 0 0) = false /\
  exit_n (Loop c (Z.to_nat 751) (Vec2 0 0) 0 0) = Z.max 0 751 /\
  Part000.mandelBrot 2.5 1 uStart 751
    COLOR_0 COLOR_1 COLOR_2 COLOR_3 COLOR_4 positionLocal
  = Vec4 (Vec3 0 0 0) 1.
Proof.
  intros uStart positionLocal c.
  assert (Hc : (dot c c <= 1 # 16)%Q) by (vm_compute; discriminate).
  destruct (small_points_never_escape 2.5 1 uStart 751
              COLOR_0 COLOR_1 COLOR_2 COLOR_3 COLOR_4 positionLocal Hc)
    as (Ha & Hn & _ & _ & Hb).
  split; [exact Hc|]. split; [exact Ha|]. split; [exact Hn | exact Hb].
Defined.

Lemma first_iterate (uv : vec2) :
  (dot (add2 (Vec2 (0 * 0 - 0 * 0) (2 * 0 * 0)) uv)
       (add2 (Vec2 (0 * 0 - 0 * 0) (2 * 0 * 0)) uv)
   == dot uv uv)%Q.
Proof. unfold dot, add2. cbn [vx vy]. ring. Qed.

(** X5.  A sample point outside the bailout radius ([|c|^2 > 256^2]) stops
    the loop of [iterateMandelbrot] in its first pass, with [n = 0]: under
    every budget of at least 1 the value returned is
    [0 - (log2 (log2 |c|^2) + 4)]. *)
Theorem far_points_stop_in_first_pass (uv : vec2) (uMaxIterations : Z) :
  (1 <= uMaxIterations)%Z ->
  (b * b < dot uv uv)%Q ->
  let out := Loop uv (Z.to_nat uMaxIterations) (Vec2 0 0) 0 0 in
  stoppedEarly out = true /\
  trips out = 1%nat /\
  exit_n out = 0%Z /\
  iterateMandelbrot uMaxIterations (Vec2 0 0) uv
  = (0 - (log2 (log2 (Q2R (dot uv uv))) + 4))%R.
Proof.
  intros HM Hfar out.
  assert (E : out
              = Exit (add2 (Vec2 (0 * 0 - 0 * 0) (2 * 0 * 0)) uv) 0 1 true).
  { unfold out. destruct (Z.to_nat uMaxIterations) as [|k] eqn:Ek; [lia|].
    cbn [Loop vx vy].
    replace (greaterThan _ _) with true; [reflexivity|].
    symmetry. apply greaterThan_true. now rewrite first_iterate. }
  rewrite E. cbn [stoppedEarly trips exit_n].
  split; [reflexivity|]. split; [reflexivity|]. split; [reflexivity|].
  rewrite iterateMandelbrot_value. fold out. rewrite E.
  cbn [exit_z exit_n]. rewrite (Qeq_eqR _ _ (first_iterate uv)). lra.
Qed.

Lemma far_points_stop_in_first_pass_witness :
  ((1 <= 1)%Z /\ (b * b < dot (Vec2 300 0) (Vec2 300 0))%Q) /\
  stoppedEarly (Loop (Vec2 300 0) (Z.to_nat 1) (Vec2 0 0) 0 0) = true /\
  trips (Loop (Vec2 300 0) (Z.to_nat 1) (Vec2 0 0) 0 0) = 1%nat /\
  iterateMandelbrot 1 (Vec2 0 0) (Vec2 300 0)
  = (0 - (log2 (log2 (Q2R (dot (Vec2 300 0) (Vec2 300 0)))) + 4))%R.
Proof.
  assert (H1 : (1 <= 1)%Z) by lia.
  assert (H2 : (b * b < dot (Vec2 300 0) (Vec2 300 0))%Q) by reflexivity.
  destruct (far_points_stop_in_first_pass (Vec2 300 0) 1 H1 H2)
    as (Hs & Ht & _ & Hv).
  split; [split; assumption|].
  split; [exact Hs|]. split; [exact Ht | exact Hv].
Defined.

(** ** The loop of the second variant: what [iteration] holds *)

Lemma Part000_Loop_spec (scaled : vec2) (k : nat) :
  forall i z it e,
    let out := Part000.Loop scaled k i z it e in
    (e <= trips out <= e + k)%nat /\
    (stoppedEarly out = true ->
       (e < trips out)%nat /\
       exit_n out = (i + Z.of_nat (trips out - S e))%Z /\
       exit_z out = orbit scaled z (trips out - S e) /\
       (4.0 < dot (exit_z out) (exit_z out))%Q /\
       forall j, (j < trips out - S e)%nat ->
                 (dot (orbit scaled z j) (orbit scaled z j) <= 4.0)%Q) /\
    (stoppedEarly out = false ->
       trips out = (e + k)%nat /\
       exit_z out = orbit scaled z k /\
       forall j, (j < k)%nat ->
                 (dot (orbit scaled z j) (orbit scaled z j) <= 4.0)%Q).
Proof.
  induction k as [|k IH]; intros i z it e; cbn zeta;
    cbn [Part000.Loop].
  - cbn [trips exit_n stoppedEarly exit_z].
    split; [lia|]. split; [discriminate|]. intros _.
    split; [lia|]. split; [reflexivity|]. intros j Hj. lia.
  - destruct (greaterThan (dot z z) 4.0) eqn:G.
    + cbn [trips exit_n stoppedEarly exit_z].
      split; [lia|]. split; [|discriminate]. intros _.
      rewrite Nat.sub_diag. split; [lia|]. split; [cbn; lia|].
      split; [reflexivity|]. split; [now apply greaterThan_true|].
      intros j Hj. lia.
    + apply greaterThan_false in G.
      set (z' := Vec2 (vx z * vx z - vy z * vy z + vx scaled)
                      (2 * vx z * vy z + vy scaled)).
      assert (Hshift : forall j, orbit scaled z (S j) = orbit scaled z' j)
        by (intro j; apply (orbit_shift scaled z j)).
      destruct (IH (i + 1)%Z z' i (S e)) as (Hb & Hstop & Hdone).
      set (out := Part000.Loop scaled k (i + 1) z' i (S e)) in *.
      split; [lia|]. split.
      * intro Hs. destruct (Hstop Hs) as (Ht & Hn & Hz & Hesc & Hin).
        replace (trips out - S e)%nat with (S (trips out - S (S e))) by lia.
        split; [lia|]. split; [lia|]. split; [now rewrite Hshift|].
        split; [exact Hesc|].
        intros [|j] Hj; [exact G|]. rewrite Hshift. apply Hin. lia.
      * intro Hs. destruct (Hdone Hs) as (Ht & Hz & Hin).
        split; [lia|]. split; [now rewrite Hshift|].
        intros [|j] Hj; [exact G|]. rewrite Hshift. apply Hin. lia.
Qed.

(** X6.  The loop of the second variant, started at [z = 0] with the index
    0: when it stops early, [iteration] is the index of the first iterate
    outside the radius 2 ([|z_i|^2 > 4], counting [z_0 = 0]), below the
    budget, and the final [z] is that iterate; when it runs to completion,
    no iterate with an index below the budget is outside the radius, the
    final [z] is the iterate after the last pass and [iteration] is the last
    index, [uMaxIterations - 1] (0 for an empty loop). *)
Theorem part000_iteration_is_first_escape (scaled : vec2) (uMaxIterations : Z) :
  let out := Part000.Loop scaled (Z.to_nat uMaxIterations) 0 (Vec2 0 0) 0 0 in
  let z := orbit scaled (Vec2 0 0) in
  (stoppedEarly out = true ->
     (0 <= exit_n out < uMaxIterations)%Z /\
     exit_z out = z (Z.to_nat (exit_n out)) /\
     (4.0 < dot (exit_z out) (exit_z out))%Q /\
     forall j : nat,
       (Z.of_nat j < exit_n out)%Z -> (dot (z j) (z j) <= 4.0)%Q) /\
  (stoppedEarly out = false ->
     exit_n out = Z.max 0 (uMaxIterations - 1) /\
     exit_z out = z (Z.to_nat uMaxIterations) /\
     forall j : nat,
       (Z.of_nat j < uMaxIterations)%Z -> (dot (z j) (z j) <= 4.0)%Q).
Proof.
  intros out z.
  destruct (Part000_Loop_spec scaled (Z.to_nat uMaxIterations)
              0%Z (Vec2 0 0) 0%Z 0%nat) as (Hb & Hstop & Hdone).
  fold out in Hb, Hstop, Hdone. split.
  - intro Hs. destruct (Hstop Hs) as (Ht & Hn & Hz & Hesc & Hin).
    assert (En : Z.to_nat (exit_n out) = (trips out - 1)%nat) by lia.
    split; [lia|]. split; [now rewrite En|]. split; [exact Hesc|].
    intros j Hj. apply Hin. lia.
  - intro Hs. destruct (Hdone Hs) as (Ht & Hz & Hin).
    split; [|split; [exact Hz|]].
    + pose proof (Part000_Loop_completed scaled _ _ _ _ _ Hs) as Hn.
      fold out in Hn. destruct (Z.to_nat uMaxIterations) eqn:E; lia.
    + intros j Hj. apply Hin. lia.
Qed.

Lemma part000_iteration_is_first_escape_witness :
  let out := Part000.Loop (Vec2 2 0) (Z.to_nat 100) 0 (Vec2 0 0) 0 0 in
  let z := orbit (Vec2 2 0) (Vec2 0 0) in
  stoppedEarly out = true /\
  (0 <= exit_n out < 100)%Z /\
  exit_z out = z (Z.to_nat (exit_n out)) /\
  (4.0 < dot (exit_z out) (exit_z out))%Q /\
  (dot (z 1%nat) (z 1%nat) <= 4.0)%Q.
Proof.
  intros out z.
  destruct (part000_iteration_is_first_escape (Vec2 2 0) 100) as [Hstop _].
  assert (Hs : stoppedEarly out = true) by (vm_compute; reflexivity).
  assert (H1 : (Z.of_nat 1 < exit_n out)%Z) by (vm_compute; reflexivity).
  destruct (Hstop Hs) as (Hn & Hz & Hesc & Hin).
  split; [exact Hs|]. split; [exact Hn|]. split; [exact Hz|].
  split; [exact Hesc | exact (Hin 1%nat H1)].
Defined.

(** ** The colour mapping: its values *)

(** X7.  The colour mapping passes through the palette: the iteration values
    0, 16, 42, 64.25 and 85.75 are given the five palette colours in order,
    and every value above 85.75 (also one above the reference budget of 100)
    is given the last colour. *)
Theorem colour_mapping_passes_through_palette
  (uColor0 uColor1 uColor2 uColor3 uColor4 : vec3) :
  let color := rgbColorFromIteration uColor0 uColor1 uColor2 uColor3 uColor4 in
  color 0%R = uColor0 /\
  color 16%R = uColor1 /\
  color 42%R = uColor2 /\
  color 64.25%R = uColor3 /\
  color 85.75%R = uColor4 /\
  forall iteration : R, (85.75 < iteration)%R -> color iteration = uColor4.
Proof.
  intro color. unfold color, rgbColorFromIteration, maxIterations.
  split; [apply rgbColorFromIteration_zero|].
  split; [replace (16 / 100)%R with 0.16%R by lra; apply gradient_at_016|].
  split; [replace (42 / 100)%R with 0.42%R by lra; apply gradient_at_042|].
  split; [replace (64.25 / 100)%R with 0.6425%R by lra;
          apply gradient_at_06425|].
  split; [replace (85.75 / 100)%R with 0.8575%R by lra;
          apply gradient_at_08575|].
  intros iteration H. apply gradient_band4. lra.
Qed.

Lemma colour_mapping_passes_through_palette_witness :
  (85.75 < 250)%R /\
  rgbColorFromIteration COLOR_0 COLOR_1 COLOR_2 COLOR_3 COLOR_4 250 = COLOR_4.
Proof.
  assert (H : (85.75 < 250)%R) by lra.
  split; [exact H|].
  destruct (colour_mapping_passes_through_palette
              COLOR_0 COLOR_1 COLOR_2 COLOR_3 COLOR_4)
    as (_ & _ & _ & _ & _ & Hlast).
  exact (Hlast 250%R H).
Defined.

Lemma min5_le (a0 a1 a2 a3 a4 : R) :
  (min5 a0 a1 a2 a3 a4 <= a0 /\ min5 a0 a1 a2 a3 a4 <= a1 /\
   min5 a0 a1 a2 a3 a4 <= a2 /\ min5 a0 a1 a2 a3 a4 <= a3 /\
   min5 a0 a1 a2 a3 a4 <= a4)%R.
Proof.
  unfold min5.
  pose proof (Rmin_l a0 (Rmin a1 (Rmin a2 (Rmin a3 a4)))).
  pose proof (Rmin_r a0 (Rmin a1 (Rmin a2 (Rmin a3 a4)))).
  pose proof (Rmin_l a1 (Rmin a2 (Rmin a3 a4))).
  pose proof (Rmin_r a1 (Rmin a2 (Rmin a3 a4))).
  pose proof (Rmin_l a2 (Rmin a3 a4)).
  pose proof (Rmin_r a2 (Rmin a3 a4)).
  pose proof (Rmin_l a3 a4).
  pose proof (Rmin_r a3 a4).
  repeat split; lra.
Qed.

Lemma max5_ge (a0 a1 a2 a3 a4 : R) :
  (a0 <= max5 a0 a1 a2 a3 a4 /\ a1 <= max5 a0 a1 a2 a3 a4 /\
   a2 <= max5 a0 a1 a2 a3 a4 /\ a3 <= max5 a0 a1 a2 a3 a4 /\
   a4 <= max5 a0 a1 a2 a3 a4)%R.
Proof.
  unfold max5.
  pose proof (Rmax_l a0 (Rmax a1 (Rmax a2 (Rmax a3 a4)))).
  pose proof (Rmax_r a0 (Rmax a1 (Rmax a2 (Rmax a3 a4)))).
  pose proof (Rmax_l a1 (Rmax a2 (Rmax a3 a4))).
  pose proof (Rmax_r a1 (Rmax a2 (Rmax a3 a4))).
  pose proof (Rmax_l a2 (Rmax a3 a4)).
  pose proof (Rmax_r a2 (Rmax a3 a4)).
  pose proof (Rmax_l a3 a4).
  pose proof (Rmax_r a3 a4).
  repeat split; lra.
Qed.

(** A point of the segment from [p] to [q] lies between any bounds of the
    two. *)
Lemma segment_between (lo hi p q k : R) :
  (lo <= p <= hi)%R -> (lo <= q <= hi)%R -> (0 <= k <= 1)%R ->
  (lo <= p + (q - p) * k <= hi)%R.
Proof. intros Hp Hq Hk. split; nra. Qed.

(** The gradient of a value that is not negative, channel by channel, for
    any reading [ch] of a channel that goes through the vector
    operations. *)
Lemma gradient_channel_within
  (ch : vec3 -> R)
  (Hch : forall p q k, ch (add3 p (mul3 (sub3 q p) k))
                       = (ch p + (ch q - ch p) * k)%R)
  (c0 c1 c2 c3 c4 : vec3) (t : R) :
  (0 <= t)%R ->
  (min5 (ch c0) (ch c1) (ch c2) (ch c3) (ch c4)
   <= ch (gradient c0 c1 c2 c3 c4 t)
   <= max5 (ch c0) (ch c1) (ch c2) (ch c3) (ch c4))%R.
Proof.
  intro Ht.
  destruct (min5_le (ch c0) (ch c1) (ch c2) (ch c3) (ch c4))
    as (L0 & L1 & L2 & L3 & L4).
  destruct (max5_ge (ch c0) (ch c1) (ch c2) (ch c3) (ch c4))
    as (U0 & U1 & U2 & U3 & U4).
  destruct (Rle_lt_dec t 0.16) as [H1|H1].
  { rewrite gradient_band0 by lra. rewrite Hch.
    apply segment_between; lra. }
  destruct (Rle_lt_dec t 0.42) as [H2|H2].
  { rewrite gradient_band1 by lra. rewrite Hch.
    replace (0.42 - 0.16)%R with 0.26%R by lra.
    apply segment_between; lra. }
  destruct (Rle_lt_dec t 0.6425) as [H3|H3].
  { rewrite gradient_band2 by lra. rewrite Hch.
    replace (0.6425 - 0.42)%R with 0.2225%R by lra.
    apply segment_between; lra. }
  destruct (Rle_lt_dec t 0.8575) as [H4|H4].
  { rewrite gradient_band3 by lra. rewrite Hch.
    replace (0.8575 - 0.6425)%R with 0.215%R by lra.
    apply segment_between; lra. }
  rewrite gradient_band4 by lra. lra.
Qed.

(** X8.  For an iteration value that is not negative every channel of the
    colour lies between the smallest and the largest value that the five
    palette colours have in that channel. *)
Theorem colour_mapping_within_palette
  (uColor0 uColor1 uColor2 uColor3 uColor4 : vec3) (iteration : R) :
  (0 <= iteration)%R ->
  let color :=
    rgbColorFromIteration uColor0 uColor1 uColor2 uColor3 uColor4 iteration in
  (min5 (cr uColor0) (cr uColor1) (cr uColor2) (cr uColor3) (cr uColor4)
   <= cr color
   <= max5 (cr uColor0) (cr uColor1) (cr uColor2) (cr uColor3) (cr uColor4))%R
  /\
  (min5 (cg uColor0) (cg uColor1) (cg uColor2) (cg uColor3) (cg uColor4)
   <= cg color
   <= max5 (cg uColor0) (cg uColor1) (cg uColor2) (cg uColor3) (cg uColor4))%R
  /\
  (min5 (cb uColor0) (cb uColor1) (cb uColor2) (cb uColor3) (cb uColor4)
   <= cb color
   <= max5 (cb uColor0) (cb uColor1) (cb uColor2) (cb uColor3) (cb uColor4))%R.
Proof.
  intros H color. unfold color, rgbColorFromIteration, maxIterations.
  assert (Ht : (0 <= iteration / 100)%R) by lra.
  split; [|split]; apply gradient_channel_within; try exact Ht;
    intros p q k; reflexivity.
Qed.

Lemma colour_mapping_within_palette_witness :
  let color :=
    rgbColorFromIteration COLOR_0 COLOR_1 COLOR_2 COLOR_3 COLOR_4 50 in
  (0 <= 50)%R /\
  (min5 (cr COLOR_0) (cr COLOR_1) (cr COLOR_2) (cr COLOR_3) (cr COLOR_4)
   <= cr color
   <= max5 (cr COLOR_0) (cr COLOR_1) (cr COLOR_2) (cr COLOR_3) (cr COLOR_4))%R.
Proof.
  intro color.
  assert (H : (0 <= 50)%R) by lra.
  split; [exact H|].
  exact (proj1 (colour_mapping_within_palette
                  COLOR_0 COLOR_1 COLOR_2 COLOR_3 COLOR_4 50 H)).
Defined.

(** ** The colour mapping: continuity *)

(** A function that is affine on either side of [t0] is continuous there. *)
Lemma two_sided_affine_continuous (f : R -> R) (t0 gap s1 s2 : R) :
  (0 < gap)%R ->
  (forall t, (t0 - gap < t <= t0)%R -> f t = (f t0 + s1 * (t - t0))%R) ->
  (forall t, (t0 <= t < t0 + gap)%R -> f t = (f t0 + s2 * (t - t0))%R) ->
  continuity_pt f t0.
Proof.
  intros Hgap Hl Hr eps Heps.
  pose proof (Rabs_pos s1) as P1. pose proof (Rabs_pos s2) as P2.
  set (q := (eps / (Rabs s1 + Rabs s2 + 1))%R).
  assert (Hq : (0 < q)%R) by (apply Rdiv_lt_0_compat; lra).
  assert (Hqs : (q * (Rabs s1 + Rabs s2 + 1) = eps)%R)
    by (unfold q; field; lra).
  exists (Rmin gap q). split.
  - apply Rmin_glb_lt; lra.
  - intros t [_ Hd]. cbn [dist R_met Base] in *. unfold R_dist in *.
    pose proof (Rmin_l gap q). pose proof (Rmin_r gap q).
    pose proof (Rabs_pos (t - t0)) as P.
    assert (Hlt : (t0 - gap < t < t0 + gap)%R).
    { unfold Rabs in Hd. destruct (Rcase_abs (t - t0)); lra. }
    destruct (Rle_lt_dec t t0) as [Hle|Hgt].
    + rewrite Hl by lra.
      replace (f t0 + s1 * (t - t0) - f t0)%R with (s1 * (t - t0))%R by ring.
      rewrite Rabs_mult. nra.
    + rewrite Hr by lra.
      replace (f t0 + s2 * (t - t0) - f t0)%R with (s2 * (t - t0))%R by ring.
      rewrite Rabs_mult. nra.
Qed.

Lemma continuity_pt_scaled (f : R -> R) (k x : R) :
  (0 < k)%R ->
  continuity_pt f (x / k) ->
  continuity_pt (fun y => f (y / k)%R) x.
Proof.
  intros Hk Hf eps Heps. destruct (Hf eps Heps) as (alp & Halp & H).
  exists (alp * k)%R. split; [nra|].
  intros y [[_ Hne] Hd]. cbn [dist R_met Base] in *. unfold R_dist in *.
  apply H. split.
  - split; [exact I|]. intro E. apply Hne.
    apply (Rmult_eq_reg_r (/ k)); [exact E|].
    apply Rinv_neq_0_compat. lra.
  - replace (y / k - x / k)%R with ((y - x) * / k)%R by (field; lra).
    rewrite Rabs_mult, (Rabs_pos_eq (/ k)).
    + apply (Rmult_lt_reg_r k); [exact Hk|].
      replace (Rabs (y - x) * / k * k)%R with (Rabs (y - x)) by (field; lra).
      exact Hd.
    + left. now apply Rinv_0_lt_compat.
Qed.

(** The gradient, read through a channel [ch] that goes through the vector
    operations, is continuous at every point. *)
Lemma gradient_channel_continuous
  (ch : vec3 -> R)
  (Hch : forall p q k, ch (add3 p (mul3 (sub3 q p) k))
                       = (ch p + (ch q - ch p) * k)%R)
  (c0 c1 c2 c3 c4 : vec3) (t0 : R) :
  continuity_pt (fun t => ch (gradient c0 c1 c2 c3 c4 t)) t0.
Proof.
  set (s0 := ((ch c1 - ch c0) / 0.16)%R).
  set (s1 := ((ch c2 - ch c1) / 0.26)%R).
  set (s2 := ((ch c3 - ch c2) / 0.2225)%R).
  set (s3 := ((ch c4 - ch c3) / 0.215)%R).
  assert (B0 : forall t, (t <= 0.16)%R ->
               ch (gradient c0 c1 c2 c3 c4 t) = (ch c0 + s0 * t)%R).
  { intros t H. rewrite gradient_band0, Hch by lra. unfold s0. nra. }
  assert (B1 : forall t, (0.16 < t <= 0.42)%R ->
               ch (gradient c0 c1 c2 c3 c4 t)
               = (ch c1 + s1 * (t - 0.16))%R).
  { intros t H. rewrite gradient_band1, Hch by lra. unfold s1. nra. }
  assert (B2 : forall t, (0.42 < t <= 0.6425)%R ->
               ch (gradient c0 c1 c2 c3 c4 t)
               = (ch c2 + s2 * (t - 0.42))%R).
  { intros t H. rewrite gradient_band2, Hch by lra. unfold s2. nra. }
  assert (B3 : forall t, (0.6425 < t <= 0.8575)%R ->
               ch (gradient c0 c1 c2 c3 c4 t)
               = (ch c3 + s3 * (t - 0.6425))%R).
  { intros t H. rewrite gradient_band3, Hch by lra. unfold s3. nra. }
  assert (B4 : forall t, (0.8575 < t)%R ->
               ch (gradient c0 c1 c2 c3 c4 t) = ch c4).
  { intros t H. now rewrite gradient_band4 by lra. }
  assert (E1 : (ch c0 + s0 * 0.16 = ch c1)%R) by (unfold s0; lra).
  assert (E2 : (ch c1 + s1 * (0.42 - 0.16) = ch c2)%R) by (unfold s1; lra).
  assert (E3 : (ch c2 + s2 * (0.6425 - 0.42) = ch c3)%R) by (unfold s2; lra).
  assert (E4 : (ch c3 + s3 * (0.8575 - 0.6425) = ch c4)%R)
    by (unfold s3; lra).
  clearbody s0 s1 s2 s3.
  destruct (Rtotal_order t0 0.16) as [H|[H|H]].
  { apply two_sided_affine_continuous
      with (gap := (0.16 - t0)%R) (s1 := s0) (s2 := s0); [lra| |];
      intros t Ht; rewrite (B0 t), (B0 t0) by lra; lra. }
  { subst t0.
    apply two_sided_affine_continuous
      with (gap := 0.26%R) (s1 := s0) (s2 := s1); [lra| |]; intros t Ht.
    - rewrite (B0 t), (B0 0.16%R) by lra. lra.
    - destruct (Req_dec t 0.16) as [->|Hne]; [lra|].
      rewrite (B1 t), (B0 0.16%R) by lra. lra. }
  destruct (Rtotal_order t0 0.42) as [H'|[H'|H']].
  { pose proof (Rmin_l (t0 - 0.16) (0.42 - t0)).
    pose proof (Rmin_r (t0 - 0.16) (0.42 - t0)).
    apply two_sided_affine_continuous
      with (gap := Rmin (t0 - 0.16) (0.42 - t0)) (s1 := s1) (s2 := s1);
      [apply Rmin_glb_lt; lra| |];
      intros t Ht; rewrite (B1 t), (B1 t0) by lra; lra. }
  { subst t0.
    apply two_sided_affine_continuous
      with (gap := 0.2225%R) (s1 := s1) (s2 := s2); [lra| |]; intros t Ht.
    - rewrite (B1 t), (B1 0.42%R) by lra. lra.
    - destruct (Req_dec t 0.42) as [->|Hne]; [lra|].
      rewrite (B2 t), (B1 0.42%R) by lra. lra. }
  destruct (Rtotal_order t0 0.6425) as [H''|[H''|H'']].
  { pose proof (Rmin_l (t0 - 0.42) (0.6425 - t0)).
    pose proof (Rmin_r (t0 - 0.42) (0.6425 - t0)).
    apply two_sided_affine_continuous
      with (gap := Rmin (t0 - 0.42) (0.6425 - t0)) (s1 := s2) (s2 := s2);
      [apply Rmin_glb_lt; lra| |];
      intros t Ht; rewrite (B2 t), (B2 t0) by lra; lra. }
  { subst t0.
    apply two_sided_affine_continuous
      with (gap := 0.215%R) (s1 := s2) (s2 := s3); [lra| |]; intros t Ht.
    - rewrite (B2 t), (B2 0.6425%R) by lra. lra.
    - destruct (Req_dec t 0.6425) as [->|Hne]; [lra|].
      rewrite (B3 t), (B2 0.6425%R) by lra. lra. }
  destruct (Rtotal_order t0 0.8575) as [K|[K|K]].
  { pose proof (Rmin_l (t0 - 0.6425) (0.8575 - t0)).
    pose proof (Rmin_r (t0 - 0.6425) (0.8575 - t0)).
    apply two_sided_affine_continuous
      with (gap := Rmin (t0 - 0.6425) (0.8575 - t0)) (s1 := s3) (s2 := s3);
      [apply Rmin_glb_lt; lra| |];
      intros t Ht; rewrite (B3 t), (B3 t0) by lra; lra. }
  { subst t0.
    apply two_sided_affine_continuous
      with (gap := 0.215%R) (s1 := s3) (s2 := 0%R); [lra| |]; intros t Ht.
    - rewrite (B3 t), (B3 0.8575%R) by lra. lra.
    - destruct (Req_dec t 0.8575) as [->|Hne]; [lra|].
      rewrite (B4 t), (B3 0.8575%R) by lra. lra. }
  apply two_sided_affine_continuous
    with (gap := (t0 - 0.8575)%R) (s1 := 0%R) (s2 := 0%R); [lra| |];
    intros t Ht; rewrite (B4 t), (B4 t0) by lra; lra.
Qed.

(** X9.  The colour mapping is a continuous function of the iteration value:
    each channel of [rgbColorFromIteration] is continuous at every real
    number, so the gradient has no jump between bands nor at the end of the
    last one. *)
Theorem colour_mapping_continuous
  (uColor0 uColor1 uColor2 uColor3 uColor4 : vec3) (iteration : R) :
  let color := rgbColorFromIteration uColor0 uColor1 uColor2 uColor3 uColor4 in
  continuity_pt (fun x => cr (color x)) iteration /\
  continuity_pt (fun x => cg (color x)) iteration /\
  continuity_pt (fun x => cb (color x)) iteration.
Proof.
  intro color. unfold color, rgbColorFromIteration, maxIterations.
  split; [|split];
    apply (continuity_pt_scaled
             (fun t => _ (gradient uColor0 uColor1 uColor2 uColor3 uColor4 t)));
    try lra; apply gradient_channel_continuous; intros p q k; reflexivity.
Qed.

(** ** The animation driver: further properties of a frame *)

(** X10.  A frame moves the zoom in the direction of the phase that it has
    settled: for a delta and a zoom that are not negative the new zoom is at
    most the old one when the driver zooms in and at least the old one when
    it zooms out, and strictly so for a positive delta and zoom.  A zoom at
    or below [MIN_ZOOM] therefore grows in the next frame, and one at or
    above [MAX_ZOOM] shrinks. *)
Theorem zoom_moves_in_phase_direction (currentTime : Q) (e : Engine) :
  (0 <= frameDelta currentTime e)%Q ->
  (0 <= uZoom e)%Q ->
  let e' := renderLoop currentTime e in
  (zoomingIn e' = true -> uZoom e' <= uZoom e)%Q /\
  (zoomingIn e' = false -> uZoom e <= uZoom e')%Q /\
  (0 < frameDelta currentTime e -> 0 < uZoom e ->
   if zoomingIn e' then uZoom e' < uZoom e else uZoom e < uZoom e')%Q /\
  (uZoom e <= MIN_ZOOM -> uZoom e <= uZoom e')%Q /\
  (MAX_ZOOM <= uZoom e -> uZoom e' <= uZoom e)%Q.
Proof.
  intros Hd Hz e'. unfold e'.
  pose proof (renderLoop_uZoom currentTime e) as Hu.
  pose proof (renderLoop_zoomingIn currentTime e) as Hp.
  set (d := frameDelta currentTime e) in *.
  set (z := uZoom e) in *.
  set (z' := uZoom (renderLoop currentTime e)) in *.
  set (p := zoomingIn (renderLoop currentTime e)) in *.
  clearbody z' p. subst z'.
  split; [|split; [|split; [|split]]].
  - intros ->. nra.
  - intros ->. nra.
  - intros Hd' Hz'. destruct p; nra.
  - intro Hmin. apply Qle_bool_iff in Hmin. fold z in Hmin.
    rewrite Hmin in Hp. subst p. nra.
  - intro Hmax.
    destruct (Qle_bool z MIN_ZOOM) eqn:E.
    + apply Qle_bool_iff in E. unfold MIN_ZOOM, MAX_ZOOM in *. lra.
    + apply Qle_bool_iff in Hmax. fold z in Hmax. rewrite Hmax in Hp.
      subst p. nra.
Qed.

Lemma zoom_moves_in_phase_direction_witness :
  let e := renderLoop 0 newEngine in
  let e' := renderLoop 16 e in
  ((0 <= frameDelta 16 e)%Q /\ (0 <= uZoom e)%Q /\
   (0 < frameDelta 16 e)%Q /\ (0 < uZoom e)%Q /\ zoomingIn e' = true) /\
  (uZoom e' <= uZoom e)%Q /\
  (uZoom e' < uZoom e)%Q.
Proof.
  intros e e'.
  assert (H1 : (0 <= frameDelta 16 e)%Q) by (lazy; discriminate).
  assert (H2 : (0 <= uZoom e)%Q) by (lazy; discriminate).
  assert (H3 : (0 < frameDelta 16 e)%Q) by reflexivity.
  assert (H4 : (0 < uZoom e)%Q) by reflexivity.
  assert (H5 : zoomingIn e' = true) by reflexivity.
  destruct (zoom_moves_in_phase_direction 16 e H1 H2) as (Ha & _ & Hb & _).
  split; [repeat split; assumption|].
  split; [exact (Ha H5)|].
  specialize (Hb H3 H4). fold e' in Hb. rewrite H5 in Hb. exact Hb.
Defined.

(** X11.  A frame with the delta 0 leaves the zoom as it is: this is so in
    the first frame of an engine, whatever the clock reads, and in a frame
    drawn at the clock reading of the frame before.  The first frame of a
    new engine keeps the zoom [MAX_ZOOM], the phase and the budget 100. *)
Theorem zero_delta_keeps_zoom (currentTime : Q) (e : Engine) :
  ((frameDelta currentTime e == 0)%Q ->
   (uZoom (renderLoop currentTime e) == uZoom e)%Q) /\
  (time e = None -> (uZoom (renderLoop currentTime e) == uZoom e)%Q) /\
  (uZoom (renderLoop currentTime (renderLoop currentTime e))
   == uZoom (renderLoop currentTime e))%Q /\
  (uZoom (renderLoop currentTime newEngine) == MAX_ZOOM)%Q /\
  zoomingIn (renderLoop currentTime newEngine) = true /\
  uMaxIterations (renderLoop currentTime newEngine) = Finite 100.
Proof.
  assert (H0 : forall t e0, (frameDelta t e0 == 0)%Q ->
                            (uZoom (renderLoop t e0) == uZoom e0)%Q).
  { intros t e0 Hd. rewrite renderLoop_uZoom, Hd.
    destruct (zoomingIn (renderLoop t e0)); ring. }
  assert (Hnew : (uZoom (renderLoop currentTime newEngine) == MAX_ZOOM)%Q).
  { apply (H0 currentTime newEngine). reflexivity. }
  split; [apply H0|]. split; [|split; [|split; [|split]]].
  - intro Ht. apply H0. unfold frameDelta. now rewrite Ht.
  - apply H0. unfold frameDelta. cbn [time renderLoop]. ring.
  - exact Hnew.
  - reflexivity.
  - change (uMaxIterations (renderLoop currentTime newEngine))
      with (iterationBudget (uZoom (renderLoop currentTime newEngine))).
    assert (Hpos : (0 < uZoom (renderLoop currentTime newEngine))%Q)
      by (rewrite Hnew; reflexivity).
    rewrite (iterationBudget_positive _ Hpos). f_equal.
    unfold zoomDepth. rewrite (Q2R_quotient _ Hpos).
    rewrite (Qeq_eqR _ _ Hnew).
    replace (2.5 / Q2R MAX_ZOOM)%R with 1%R
      by (unfold MAX_ZOOM, Q2R; simpl; field).
    rewrite log2_1.
    replace (100 + 0 * 50)%R with (IZR 100) by lra.
    apply ZfloorZ.
Qed.

Lemma zero_delta_keeps_zoom_witness :
  time newEngine = None /\
  (frameDelta 1234.5 newEngine == 0)%Q /\
  (uZoom (renderLoop 1234.5 newEngine) == uZoom newEngine)%Q.
Proof.
  assert (H1 : time newEngine = None) by reflexivity.
  assert (H2 : (frameDelta 1234.5 newEngine == 0)%Q) by reflexivity.
  split; [exact H1|]. split; [exact H2|].
  exact (proj1 (zero_delta_keeps_zoom 1234.5 newEngine) H2).
Defined.

(** ** The animation driver: the range of the iteration budget *)

Lemma Q2R_MIN_ZOOM_quotient : Q2R (2.5 / MIN_ZOOM) = (IZR 25000 * / IZR 3)%R.
Proof.
  rewrite Q2R_quotient by reflexivity.
  unfold MIN_ZOOM, Q2R. simpl. field.
Qed.

(** [(25000 / 3) ^ 50] lies between [2 ^ 651] and [2 ^ 652]. *)
Lemma deepest_quotient_power :
  (2 ^ 651 <= (IZR 25000 * / IZR 3) ^ 50 < 2 ^ 652)%R.
Proof.
  rewrite Rpow_mult_distr, pow_inv, !pow_IZR.
  assert (H3 : (0 < IZR (3 ^ Z.of_nat 50))%R)
    by (apply IZR_lt; vm_compute; reflexivity).
  split.
  - apply (Rmult_le_reg_r (IZR (3 ^ Z.of_nat 50))); [exact H3|].
    rewrite Rmult_assoc, Rinv_l, Rmult_1_r by lra.
    rewrite <- mult_IZR. apply IZR_le. vm_compute. discriminate.
  - apply (Rmult_lt_reg_r (IZR (3 ^ Z.of_nat 50))); [exact H3|].
    rewrite Rmult_assoc, Rinv_l, Rmult_1_r by lra.
    rewrite <- mult_IZR. apply IZR_lt. vm_compute. reflexivity.
Qed.

Lemma log2_pow2 (n : nat) : log2 (2 ^ n) = INR n.
Proof.
  unfold log2. rewrite ln_pow by lra. pose proof ln_2_pos. field. lra.
Qed.

Lemma log2_lt (x y : R) : (0 < x)%R -> (x < y)%R -> (log2 x < log2 y)%R.
Proof.
  intros Hx Hxy. unfold log2, Rdiv.
  apply Rmult_lt_compat_r.
  - apply Rinv_0_lt_compat, ln_2_pos.
  - now apply ln_increasing.
Qed.

Lemma log2_pow (x : R) (n : nat) :
  (0 < x)%R -> log2 (x ^ n) = (INR n * log2 x)%R.
Proof.
  intro Hx. unfold log2. rewrite ln_pow by exact Hx. unfold Rdiv. ring.
Qed.

(** The depth at [MIN_ZOOM], times 50, lies between 651 and 652. *)
Lemma zoomDepth_MIN_ZOOM :
  (651 <= zoomDepth MIN_ZOOM * 50 < 652)%R.
Proof.
  unfold zoomDepth. rewrite Q2R_MIN_ZOOM_quotient.
  set (x := (IZR 25000 * / IZR 3)%R).
  assert (Hx : (0 < x)%R) by (unfold x; lra).
  destruct deepest_quotient_power as [Hlo Hhi]. fold x in Hlo, Hhi.
  assert (Hp : (0 < 2 ^ 651)%R) by (apply pow_lt; lra).
  pose proof (log2_le _ _ Hp Hlo) as L1.
  assert (Hxp : (0 < x ^ 50)%R) by (apply pow_lt; exact Hx).
  pose proof (log2_lt _ _ Hxp Hhi) as L2.
  rewrite log2_pow2 in L1, L2. rewrite log2_pow in L1, L2 by exact Hx.
  replace (INR 651) with 651%R in L1 by (rewrite INR_IZR_INZ; reflexivity).
  replace (INR 652) with 652%R in L2 by (rewrite INR_IZR_INZ; reflexivity).
  replace (INR 50) with 50%R in L1, L2 by (rewrite INR_IZR_INZ; reflexivity).
  lra.
Qed.

(** X12.  Over the range of the zoom the iteration budget lies between 100
    and 751: it is 100 at [MAX_ZOOM], 751 at [MIN_ZOOM], and a finite number
    between the two for every zoom in between. *)
Theorem iteration_budget_range (zoom : Q) :
  iterationBudget MAX_ZOOM = Finite 100 /\
  iterationBudget MIN_ZOOM = Finite 751 /\
  ((MIN_ZOOM <= zoom <= MAX_ZOOM)%Q ->
   exists m : Z, iterationBudget zoom = Finite m /\ (100 <= m <= 751)%Z).
Proof.
  assert (Hmax : Zfloor (100 + zoomDepth MAX_ZOOM * 50) = 100%Z).
  { unfold zoomDepth. rewrite Q2R_quotient by reflexivity.
    replace (2.5 / Q2R MAX_ZOOM)%R with 1%R
      by (unfold MAX_ZOOM, Q2R; simpl; field).
    rewrite log2_1. replace (100 + 0 * 50)%R with (IZR 100) by lra.
    apply ZfloorZ. }
  assert (Hmin : Zfloor (100 + zoomDepth MIN_ZOOM * 50) = 751%Z).
  { apply Zfloor_eq. pose proof zoomDepth_MIN_ZOOM. lra. }
  split; [|split].
  - rewrite iterationBudget_positive by reflexivity. now rewrite Hmax.
  - rewrite iterationBudget_positive by reflexivity. now rewrite Hmin.
  - intros [Hlo Hhi].
    assert (Hpos : (0 < zoom)%Q) by (unfold MIN_ZOOM in Hlo; lra).
    exists (Zfloor (100 + zoomDepth zoom * 50)).
    split; [now apply iterationBudget_positive|].
    pose proof (zoomDepth_antitone zoom MAX_ZOOM Hpos Hhi) as D1.
    pose proof (zoomDepth_antitone MIN_ZOOM zoom ltac:(reflexivity) Hlo) as D2.
    assert (A : (Zfloor (100 + zoomDepth MAX_ZOOM * 50)
                 <= Zfloor (100 + zoomDepth zoom * 50))%Z)
      by (apply Zfloor_le; lra).
    assert (B : (Zfloor (100 + zoomDepth zoom * 50)
                 <= Zfloor (100 + zoomDepth MIN_ZOOM * 50))%Z)
      by (apply Zfloor_le; lra).
    lia.
Qed.

Lemma iteration_budget_range_witness :
  (MIN_ZOOM <= 1 <= MAX_ZOOM)%Q /\
  exists m : Z, iterationBudget 1 = Finite m /\ (100 <= m <= 751)%Z.
Proof.
  assert (H : (MIN_ZOOM <= 1 <= MAX_ZOOM)%Q)
    by (split; lazy; discriminate).
  split; [exact H|].
  exact (proj2 (proj2 (iteration_budget_range 1)) H).
Defined.

(** ** The palette rotation *)

Lemma axis_component_sq : (/ sqrt 3 * / sqrt 3 = / 3)%R.
Proof. rewrite <- Rinv_mult. now rewrite sqrt_sqrt by lra. Qed.

(** The channels of a rotated colour, with [k] the component of the axis
    and [S] the channel sum of the colour. *)
Lemma rotateColor_channels (c : vec3) (a : R) :
  let k := (/ sqrt 3)%R in
  let S := (cr c + cg c + cb c)%R in
  rotateColor c a
  = Vec3
      (cr c * cos a + k * (cb c - cg c) * sin a + k * k * S * (1 - cos a))%R
      (cg c * cos a + k * (cr c - cb c) * sin a + k * k * S * (1 - cos a))%R
      (cb c * cos a + k * (cg c - cr c) * sin a + k * k * S * (1 - cos a))%R.
Proof.
  intros k S.
  unfold rotateColor, applyAxisAngle, colorRotationAxis, divideScalar,
    add3, mul3, cross3, dot3.
  cbn [cr cg cb]. unfold S, k. f_equal; unfold Rdiv; ring.
Qed.

Lemma rotateColor_channelSum (c : vec3) (a : R) :
  channelSum (rotateColor c a) = channelSum c.
Proof.
  rewrite rotateColor_channels. unfold channelSum. cbn [cr cg cb].
  pose proof axis_component_sq as K. set (k := (/ sqrt 3)%R) in *.
  replace (k * k)%R with (/ 3)%R. field.
Qed.

Lemma rotateColor_lengthSq (c : vec3) (a : R) :
  lengthSq (rotateColor c a) = lengthSq c.
Proof.
  rewrite rotateColor_channels. unfold lengthSq, dot3. cbn [cr cg cb].
  pose proof axis_component_sq as K. set (k := (/ sqrt 3)%R) in *.
  pose proof (sin2_cos2 a) as T. unfold Rsqr in T.
  set (s := sin a) in *. set (co := cos a) in *.
  destruct c as [x y z]. cbn [cr cg cb].
  assert (K3 : (3 * (k * k) = 1)%R) by (rewrite K; field).
  clearbody k s co. clear K.
  nsatz.
Qed.

(** X13.  The rotation of the palette keeps the channel sum [r + g + b] and
    the length of a colour, for every angle; so after every frame each of
    the five uniforms has the channel sum and the length of its base
    colour. *)
Theorem palette_rotation_keeps_sum_and_length
  (color : vec3) (angle : R) (currentTime : Q) (e : Engine) :
  let e' := renderLoop currentTime e in
  channelSum (rotateColor color angle) = channelSum color /\
  lengthSq (rotateColor color angle) = lengthSq color /\
  (channelSum (uColor0 e') = channelSum COLOR_0 /\
   channelSum (uColor1 e') = channelSum COLOR_1 /\
   channelSum (uColor2 e') = channelSum COLOR_2 /\
   channelSum (uColor3 e') = channelSum COLOR_3 /\
   channelSum (uColor4 e') = channelSum COLOR_4) /\
  (lengthSq (uColor0 e') = lengthSq COLOR_0 /\
   lengthSq (uColor1 e') = lengthSq COLOR_1 /\
   lengthSq (uColor2 e') = lengthSq COLOR_2 /\
   lengthSq (uColor3 e') = lengthSq COLOR_3 /\
   lengthSq (uColor4 e') = lengthSq COLOR_4).
Proof.
  intro e'. unfold e'. cbn [renderLoop uColor0 uColor1 uColor2 uColor3 uColor4].
  split; [apply rotateColor_channelSum|].
  split; [apply rotateColor_lengthSq|].
  split; repeat split;
    first [apply rotateColor_channelSum | apply rotateColor_lengthSq].
Qed.

(** X14.  The rotation of the palette has the period [2 * PI] in the angle
    and is the identity at the angle 0; a frame drawn at the clock reading 0
    shows the base palette. *)
Theorem palette_rotation_periodic (color : vec3) (angle : R) (e : Engine) :
  rotateColor color (angle + 2 * PI) = rotateColor color angle /\
  rotateColor color 0 = color /\
  uColor0 (renderLoop 0 e) = COLOR_0 /\
  uColor1 (renderLoop 0 e) = COLOR_1 /\
  uColor2 (renderLoop 0 e) = COLOR_2 /\
  uColor3 (renderLoop 0 e) = COLOR_3 /\
  uColor4 (renderLoop 0 e) = COLOR_4.
Proof.
  assert (H0 : forall c, rotateColor c 0 = c).
  { intro c. rewrite rotateColor_channels. rewrite cos_0, sin_0.
    destruct c as [x y z]. cbn [cr cg cb]. f_equal; ring. }
  assert (Hq : forall q : Q, (q == 0)%Q -> Q2R q = 0%R).
  { intros q Hq. rewrite (Qeq_eqR _ _ Hq). apply RMicromega.Q2R_0. }
  split; [|split; [apply H0|]].
  - rewrite !rotateColor_channels.
    replace (angle + 2 * PI)%R with (angle + 2 * INR 1 * PI)%R
      by (simpl; ring).
    now rewrite cos_period, sin_period.
  - cbn [renderLoop uColor0 uColor1 uColor2 uColor3 uColor4].
    rewrite !Hq by reflexivity. repeat split; apply H0.
Qed.

(** ** The resize handler: further properties *)

Module Binary64Resize.

Import Floats Binary64.
Local Open Scope float_scope.
#[local] Set Warnings "-inexact-float".

Lemma fold_resizeEntry_pixelRatio (entries : list contentRect) :
  forall v, pixelRatio (fold_left resizeEntry entries v) = pixelRatio v.
Proof.
  induction entries as [|entry rest IH]; intro v; cbn [fold_left].
  - reflexivity.
  - now rewrite IH.
Qed.

(** X15.  Of the notifications handed to the resize handler only the last
    one counts: the size and the aspect ratio it leaves are those of the
    last entry, whatever the entries before it and the state before the
    call; [FractalEngine.ts] sets the pixel ratio to that of the device, the
    other variant keeps the one it had.  With no entry at all the size and
    the aspect ratio are kept. *)
Theorem onResize_last_entry_wins
  (devicePixelRatio : float) (entries : list contentRect)
  (entry : contentRect) (v : Viewport) :
  onResize devicePixelRatio (entries ++ [entry]) v
  = {| rendererSize := (width entry, height entry);
       pixelRatio := devicePixelRatio;
       uAspect := width entry / height entry |} /\
  onResize_part000 (entries ++ [entry]) v
  = {| rendererSize := (width entry, height entry);
       pixelRatio := pixelRatio v;
       uAspect := width entry / height entry |} /\
  onResize devicePixelRatio [] v
  = {| rendererSize := rendererSize v;
       pixelRatio := devicePixelRatio;
       uAspect := uAspect v |} /\
  onResize_part000 [] v = v.
Proof.
  assert (E : fold_left resizeEntry (entries ++ [entry]) v
              = {| rendererSize := (width entry, height entry);
                   pixelRatio := pixelRatio v;
                   uAspect := width entry / height entry |}).
  { rewrite fold_left_app. cbn [fold_left]. unfold resizeEntry.
    now rewrite fold_resizeEntry_pixelRatio. }
  unfold onResize, onResize_part000. rewrite E.
  repeat split.
Qed.

Lemma mul_nan_r (x y : float) :
  Prim2SF y = S754_nan -> Prim2SF (x * y) = S754_nan.
Proof.
  intro H. rewrite mul_spec, H. unfold SF64mul, SFmul.
  now destruct (Prim2SF x).
Qed.

Lemma mul_nan_l (x y : float) :
  Prim2SF x = S754_nan -> Prim2SF (x * y) = S754_nan.
Proof. intro H. now rewrite mul_spec, H. Qed.

Lemma add_nan_l (x y : float) :
  Prim2SF x = S754_nan -> Prim2SF (x + y) = S754_nan.
Proof. intro H. now rewrite add_spec, H. Qed.

Lemma nan_is_nan (x : float) : Prim2SF x = S754_nan -> is_nan x = true.
Proof.
  intro H. rewrite <- (SF2Prim_Prim2SF x), H. reflexivity.
Qed.

(** X16.  A notification with the width 0 and the height 0 (an element that
    is not laid out) makes the aspect ratio [0 / 0 = NaN] in either variant,
    and the first coordinate of every sample point computed from it is
    [NaN]. *)
Theorem onResize_zero_by_zero_is_nan
  (devicePixelRatio : float) (entries : list contentRect)
  (entry : contentRect) (v : Viewport) :
  (width entry =? 0) = true ->
  (height entry =? 0) = true ->
  is_nan (uAspect (onResize devicePixelRatio (entries ++ [entry]) v)) = true /\
  is_nan (uAspect (onResize_part000 (entries ++ [entry]) v)) = true /\
  forall (uZoom : float) (uStart positionLocal : float * float),
    is_nan
      (fst (samplePoint
              (uAspect (onResize devicePixelRatio (entries ++ [entry]) v))
              uZoom uStart positionLocal))
    = true.
Proof.
  intros Hw Hh.
  assert (Hn : Prim2SF (width entry / height entry) = S754_nan).
  { rewrite eqb_spec in Hw, Hh. rewrite div_spec.
    change (Prim2SF 0) with (S754_zero false) in Hw, Hh.
    unfold SF64div, SFdiv. unfold SFeqb, SFcompare in Hw, Hh.
    destruct (Prim2SF (width entry)) as [s|s| |s m e];
      try discriminate; try (destruct s; discriminate).
    destruct (Prim2SF (height entry)) as [s'|s'| |s' m' e'];
      try discriminate; try (destruct s'; discriminate).
    reflexivity. }
  assert (Ea : uAspect (onResize devicePixelRatio (entries ++ [entry]) v)
               = width entry / height entry).
  { unfold onResize. cbn [uAspect]. now rewrite fold_left_app. }
  assert (Eb : uAspect (onResize_part000 (entries ++ [entry]) v)
               = width entry / height entry).
  { unfold onResize_part000. now rewrite fold_left_app. }
  rewrite Ea, Eb.
  split; [now apply nan_is_nan|]. split; [now apply nan_is_nan|].
  intros uZoom uStart positionLocal. unfold samplePoint. cbn [fst snd].
  apply nan_is_nan, add_nan_l, mul_nan_l, mul_nan_r, Hn.
Qed.

Lemma onResize_zero_by_zero_is_nan_witness :
  let entry := {| width := 0; height := 0 |} in
  let v := {| rendererSize := (300, 150); pixelRatio := 1; uAspect := 1 |} in
  ((width entry =? 0) = true /\ (height entry =? 0) = true) /\
  is_nan (uAspect (onResize 2 [entry] v)) = true /\
  is_nan (uAspect (onResize_part000 [entry] v)) = true.
Proof.
  intros entry v.
  assert (Hw : (width entry =? 0) = true) by reflexivity.
  assert (Hh : (height entry =? 0) = true) by reflexivity.
  destruct (onResize_zero_by_zero_is_nan 2 [] entry v Hw Hh)
    as (Ha & Hb & _).
  split; [split; assumption|]. split; [exact Ha | exact Hb].
Defined.

End Binary64Resize.

(** ** The resize observer over the life of the engine *)

(** X17.  [dispose] unobserves the canvas, but the constructor observed the
    parent of the canvas: as the two are different elements, the observer
    still has the container as its target after [dispose], where
    unobserving the container would have left it without targets. *)
Theorem dispose_leaves_container_observed (canvas canvasContainer : element) :
  canvas <> canvasContainer ->
  constructor_targets canvasContainer = [canvasContainer] /\
  dispose_targets canvas (constructor_targets canvasContainer)
  = [canvasContainer] /\
  In canvasContainer
    (dispose_targets canvas (constructor_targets canvasContainer)) /\
  dispose_targets canvasContainer (constructor_targets canvasContainer) = [].
Proof.
  intro Hne. unfold dispose_targets, constructor_targets, observe, unobserve.
  cbn [in_dec list_rec list_rect remove].
  destruct (Pos.eq_dec canvas canvasContainer) as [E|_]; [contradiction|].
  destruct (Pos.eq_dec canvasContainer canvasContainer) as [_|N];
    [|contradiction].
  repeat split. now left.
Qed.

Lemma dispose_leaves_container_observed_witness :
  (1 <> 2)%positive /\
  dispose_targets 1%positive (constructor_targets 2%positive) = [2%positive].
Proof.
  assert (H : (1 <> 2)%positive) by discriminate.
  split; [exact H|].
  exact (proj1 (proj2 (dispose_leaves_container_observed 1%positive 2%positive H))).
Defined.

(** ** The animation driver at a steady frame rate *)

Lemma power_nonneg (r : Q) (n : nat) : (0 <= r)%Q -> (0 <= power r n)%Q.
Proof.
  intro Hr. induction n as [|n IH]; cbn [power].
  - lra.
  - nra.
Qed.

Lemma inject_nat_succ (n : nat) :
  (inject_Z (Z.of_nat (S n)) == inject_Z (Z.of_nat n) + 1)%Q.
Proof.
  rewrite Nat2Z.inj_succ. unfold Z.succ. rewrite inject_Z_plus. reflexivity.
Qed.

(** Bernoulli's inequality, for the powers of a factor between 0 and 1. *)
Lemma power_decay (r : Q) (n : nat) :
  (0 <= r <= 1)%Q ->
  (power r n * (1 + inject_Z (Z.of_nat n) * (1 - r)) <= 1)%Q.
Proof.
  intros Hr. induction n as [|n IH].
  - cbn [power]. change (inject_Z (Z.of_nat 0)) with 0%Q. lra.
  - cbn [power]. rewrite inject_nat_succ.
    pose proof (power_nonneg r n ltac:(lra)) as Hp.
    set (p := power r n) in *. set (k := inject_Z (Z.of_nat n)) in *.
    assert (Hk : (0 <= k)%Q).
    { unfold k. change 0%Q with (inject_Z 0).
      rewrite <- Zle_Qle. lia. }
    assert (Hx : (r * (1 + (k + 1) * (1 - r)) <= 1 + k * (1 - r))%Q).
    { pose proof (Qsquare_nonneg (1 - r)). nra. }
    nra.
Qed.

(** Enough frames bring the power of the factor below any positive bound:
    here below [MIN_ZOOM / MAX_ZOOM]. *)
Lemma power_reaches_MIN_ZOOM (r : Q) :
  (r < 1)%Q -> exists n : nat, (MAX_ZOOM * power r n <= MIN_ZOOM)%Q.
Proof.
  intro Hr. destruct (Qlt_le_dec r 0) as [Hneg|Hpos].
  - exists 1%nat. cbn [power]. unfold MAX_ZOOM, MIN_ZOOM. lra.
  - assert (Hx : (0 < 1 - r)%Q) by lra.
    destruct (1 - r)%Q as [a d] eqn:E.
    assert (Ha : (0 < a)%Z).
    { unfold Qlt in Hx. cbn [Qnum Qden] in Hx. lia. }
    set (n := Pos.to_nat (8334 * d)).
    assert (Hn : (8334 <= inject_Z (Z.of_nat n) * (a # d))%Q).
    { unfold n. rewrite positive_nat_Z. unfold Qle, Qmult, inject_Z.
      cbn [Qnum Qden]. rewrite Pos2Z.inj_mul. nia. }
    exists n.
    pose proof (power_decay r n ltac:(lra)) as Hd. rewrite E in Hd.
    pose proof (power_nonneg r n Hpos) as Hp.
    set (p := power r n) in *. set (k := (inject_Z (Z.of_nat n) * (a # d))%Q) in *.
    unfold MAX_ZOOM, MIN_ZOOM. nra.
Qed.

Lemma steadyFrames_succ (delta : Q) (n : nat) :
  steadyFrames delta (S n) = nextFrame delta (steadyFrames delta n).
Proof. reflexivity. Qed.

Lemma nextFrame_delta (delta : Q) (e : Engine) (t : Q) :
  time e = Some t ->
  (frameDelta (t + delta) e == delta)%Q /\
  nextFrame delta e = renderLoop (t + delta) e.
Proof.
  intro Ht. unfold nextFrame, frameDelta. rewrite Ht. split; [ring|reflexivity].
Qed.

(** While the driver has zoomed in throughout, the zoom after [n + 1]
    frames is [MAX_ZOOM] times the [n]-th power of the factor of a frame. *)
Lemma steady_zoom_in (delta : Q) (n : nat) :
  (exists m, (m <= S n)%nat /\ zoomingIn (steadyFrames delta m) = false) \/
  ((uZoom (steadyFrames delta (S n))
    == MAX_ZOOM * power (1 - delta * 0.0005) n)%Q /\
   exists t, time (steadyFrames delta (S n)) = Some t).
Proof.
  induction n as [|n IH].
  - right. split; [|now exists 0%Q].
    change (steadyFrames delta 1) with (renderLoop 0 newEngine).
    rewrite renderLoop_uZoom. cbn [power].
    change (frameDelta 0 newEngine) with 0%Q.
    change (uZoom newEngine) with MAX_ZOOM.
    destruct (zoomingIn (renderLoop 0 newEngine)); ring.
  - destruct IH as [(m & Hm & Hf)|(Hz & t & Ht)].
    + left. exists m. split; [lia | exact Hf].
    + rewrite (steadyFrames_succ delta (S n)).
      destruct (nextFrame_delta delta _ t Ht) as [Hd ->].
      set (e := steadyFrames delta (S n)) in *.
      destruct (zoomingIn (renderLoop (t + delta) e)) eqn:Hp.
      * right. split; [|now exists (t + delta)%Q].
        rewrite renderLoop_uZoom, Hp, Hd, Hz. cbn [power]. ring.
      * left. exists (S (S n)). split; [lia|].
        change (steadyFrames delta (S (S n))) with (nextFrame delta e).
        destruct (nextFrame_delta delta _ t Ht) as [_ ->]. exact Hp.
Qed.

(** X18.  At a steady frame rate, with any positive delta between frames,
    the driver that starts zooming in does not zoom in for ever: after
    finitely many frames the zoom has come down to [MIN_ZOOM] and the phase
    is flipped to zooming out. *)
Theorem steady_zoom_in_ends (delta : Q) :
  (0 < delta)%Q ->
  exists n : nat, zoomingIn (steadyFrames delta n) = false.
Proof.
  intro Hd.
  assert (Hr : (1 - delta * 0.0005 < 1)%Q) by lra.
  destruct (power_reaches_MIN_ZOOM _ Hr) as [n Hn].
  destruct (steady_zoom_in delta n) as [(m & _ & Hf)|(Hz & t & Ht)].
  - now exists m.
  - exists (S (S n)). rewrite steadyFrames_succ.
    destruct (nextFrame_delta delta _ t Ht) as [_ ->].
    rewrite renderLoop_zoomingIn.
    replace (Qle_bool (uZoom (steadyFrames delta (S n))) MIN_ZOOM) with true;
      [reflexivity|].
    symmetry. apply Qle_bool_iff. rewrite Hz. exact Hn.
Qed.

Lemma steady_zoom_in_ends_witness :
  (0 < 1000)%Q /\ exists n : nat, zoomingIn (steadyFrames 1000 n) = false.
Proof.
  assert (H : (0 < 1000)%Q) by reflexivity.
  split; [exact H | exact (steady_zoom_in_ends 1000 H)].
Defined.

(** Bernoulli's inequality, for the powers of a factor of at least 1. *)
Lemma power_growth (x : Q) (n : nat) :
  (0 <= x)%Q ->
  (1 + inject_Z (Z.of_nat n) * x <= power (1 + x) n)%Q.
Proof.
  intro Hx. induction n as [|n IH].
  - cbn [power]. change (inject_Z (Z.of_nat 0)) with 0%Q. lra.
  - cbn [power]. rewrite inject_nat_succ.
    set (p := power (1 + x) n) in *. set (k := inject_Z (Z.of_nat n)) in *.
    assert (Hk : (0 <= k)%Q).
    { unfold k. change 0%Q with (inject_Z 0). rewrite <- Zle_Qle. lia. }
    assert (Hkx : (0 <= k * x)%Q) by (apply Qmult_le_0_compat; assumption).
    assert (Hp : (1 <= p)%Q) by lra.
    assert (Hpx : (0 <= (p - 1 - k * x) * x)%Q)
      by (apply Qmult_le_0_compat; lra).
    assert (Hkxx : (0 <= k * x * x)%Q)
      by (apply Qmult_le_0_compat; assumption).
    lra.
Qed.

Lemma power_reaches_MAX_ZOOM (zoom x : Q) :
  (0 < zoom)%Q -> (0 < x)%Q ->
  exists n : nat, (MAX_ZOOM <= zoom * power (1 + x) n)%Q.
Proof.
  intros Hz Hx.
  destruct zoom as [a c] eqn:Ez. destruct x as [u d] eqn:Ex.
  assert (Ha : (0 < a)%Z) by (unfold Qlt in Hz; cbn [Qnum Qden] in Hz; lia).
  assert (Hu : (0 < u)%Z) by (unfold Qlt in Hx; cbn [Qnum Qden] in Hx; lia).
  set (n := Pos.to_nat (3 * c * d)).
  assert (Hn : (3 <= (a # c) * (inject_Z (Z.of_nat n) * (u # d)))%Q).
  { unfold n. rewrite positive_nat_Z. unfold Qle, Qmult, inject_Z.
    cbn [Qnum Qden]. rewrite !Pos2Z.inj_mul.
    assert (Hau : (1 <= a * u)%Z) by nia.
    pose proof (Pos2Z.is_pos c). pose proof (Pos2Z.is_pos d).
    set (C := Z.pos c) in *. set (D := Z.pos d) in *.
    assert (HCD : (0 < C * D)%Z) by nia.
    replace (a * (3 * C * D * u) * 1)%Z
      with ((a * u) * (3 * (C * D)))%Z by ring.
    replace (3 * (C * (1 * D)))%Z with (1 * (3 * (C * D)))%Z by ring.
    apply Z.mul_le_mono_nonneg_r; lia. }
  exists n.
  pose proof (power_growth (u # d) n ltac:(lra)) as Hg.
  set (p := power (1 + (u # d)) n) in *.
  set (k := inject_Z (Z.of_nat n)) in *.
  unfold MAX_ZOOM. nra.
Qed.

(** While the driver has zoomed out throughout, the zoom after [n] more
    frames is the zoom it had times the [n]-th power of the factor. *)
Lemma steady_zoom_out (delta : Q) (e : Engine) (t0 : Q) (n : nat) :
  time e = Some t0 ->
  (exists m, (1 <= m <= n)%nat /\
             zoomingIn (Nat.iter m (nextFrame delta) e) = true) \/
  ((uZoom (Nat.iter n (nextFrame delta) e)
    == uZoom e * power (1 + delta * 0.0005) n)%Q /\
   exists t, time (Nat.iter n (nextFrame delta) e) = Some t).
Proof.
  intro H0. induction n as [|n IH].
  - right. cbn [Nat.iter nat_rect power]. split; [ring | now exists t0].
  - destruct IH as [(m & Hm & Hf)|(Hz & t & Ht)].
    + left. exists m. split; [lia | exact Hf].
    + rewrite Nat.iter_succ.
      destruct (nextFrame_delta delta _ t Ht) as [Hd E].
      set (en := Nat.iter n (nextFrame delta) e) in *.
      destruct (zoomingIn (renderLoop (t + delta) en)) eqn:Hp.
      * left. exists (S n). split; [lia|].
        rewrite Nat.iter_succ. fold en. now rewrite E.
      * right. rewrite E. split; [|now exists (t + delta)%Q].
        rewrite renderLoop_uZoom, Hp, Hd, Hz. cbn [power]. ring.
Qed.

Lemma steady_zoom_out_ends (delta : Q) (e : Engine) (t0 : Q) :
  (0 < delta)%Q -> (0 < uZoom e)%Q -> time e = Some t0 ->
  exists m, (1 <= m)%nat /\ zoomingIn (Nat.iter m (nextFrame delta) e) = true.
Proof.
  intros Hd Hz H0.
  assert (Hx : (0 < delta * 0.0005)%Q) by lra.
  destruct (power_reaches_MAX_ZOOM _ _ Hz Hx) as [n Hn].
  destruct (steady_zoom_out delta e t0 n H0) as [(m & Hm & Hf)|(Hzn & t & Ht)].
  - exists m. split; [lia | exact Hf].
  - exists (S n). split; [lia|]. rewrite Nat.iter_succ.
    destruct (nextFrame_delta delta _ t Ht) as [_ ->].
    rewrite renderLoop_zoomingIn.
    set (en := Nat.iter n (nextFrame delta) e) in *.
    assert (Hmax : (MAX_ZOOM <= uZoom en)%Q) by (rewrite Hzn; exact Hn).
    replace (Qle_bool (uZoom en) MIN_ZOOM) with false
      by (symmetry; apply Qle_bool_false;
          unfold MIN_ZOOM, MAX_ZOOM in *; lra).
    apply Qle_bool_iff in Hmax. now rewrite Hmax.
Qed.

(** At a steady rate of less than two seconds a frame the zoom stays
    positive and every state after the first frame has a clock reading. *)
Lemma steadyFrames_positive (delta : Q) (n : nat) :
  (0 < delta)%Q -> (delta * 0.0005 < 1)%Q ->
  (0 < uZoom (steadyFrames delta n))%Q /\
  ((1 <= n)%nat -> exists t, time (steadyFrames delta n) = Some t).
Proof.
  intros Hd Hk. induction n as [|n [IHz IHt]].
  - split; [reflexivity | lia].
  - rewrite steadyFrames_succ. split.
    + unfold nextFrame.
      destruct (time (steadyFrames delta n)) as [t|] eqn:Et.
      * assert (E : (t + delta - t == delta)%Q) by ring.
        apply renderLoop_keeps_positive; [| |exact IHz];
          unfold frameDelta; rewrite Et, E; lra.
      * apply renderLoop_keeps_positive; [| |exact IHz];
          unfold frameDelta; rewrite Et; lra.
    + intros _. unfold nextFrame. eexists. reflexivity.
Qed.

(** X19.  At a steady frame rate with a delta below two seconds the
    animation oscillates: the driver that starts zooming in is zooming out
    after finitely many frames, and is zooming in again after finitely many
    more. *)
Theorem steady_animation_oscillates (delta : Q) :
  (0 < delta)%Q -> (delta * 0.0005 < 1)%Q ->
  exists n m : nat,
    (n < m)%nat /\
    zoomingIn (steadyFrames delta n) = false /\
    zoomingIn (steadyFrames delta m) = true.
Proof.
  intros Hd Hk.
  assert (Hr : (1 - delta * 0.0005 < 1)%Q) by lra.
  assert (Hout : exists n, zoomingIn (steadyFrames delta n) = false).
  { destruct (power_reaches_MIN_ZOOM _ Hr) as [n Hn].
    destruct (steady_zoom_in delta n) as [(m & _ & Hf)|(Hz & t & Ht)].
    - now exists m.
    - exists (S (S n)). rewrite steadyFrames_succ.
      destruct (nextFrame_delta delta _ t Ht) as [_ ->].
      rewrite renderLoop_zoomingIn.
      replace (Qle_bool (uZoom (steadyFrames delta (S n))) MIN_ZOOM)
        with true; [reflexivity|].
      symmetry. apply Qle_bool_iff. rewrite Hz. exact Hn. }
  destruct Hout as [n Hn].
  assert (H1 : (1 <= n)%nat).
  { destruct n as [|n]; [discriminate Hn | lia]. }
  destruct (steadyFrames_positive delta n Hd Hk) as [Hz Ht].
  destruct (Ht H1) as [t Et].
  destruct (steady_zoom_out_ends delta _ t Hd Hz Et) as (m & Hm & Hin).
  exists n, (m + n)%nat. split; [lia|]. split; [exact Hn|].
  unfold steadyFrames in *. now rewrite Nat.iter_add.
Qed.

Lemma steady_animation_oscillates_witness :
  ((0 < 16)%Q /\ (16 * 0.0005 < 1)%Q) /\
  exists n m : nat,
    (n < m)%nat /\
    zoomingIn (steadyFrames 16 n) = false /\
    zoomingIn (steadyFrames 16 m) = true.
Proof.
  assert (H1 : (0 < 16)%Q) by reflexivity.
  assert (H2 : (16 * 0.0005 < 1)%Q) by reflexivity.
  split; [split; assumption | exact (steady_animation_oscillates 16 H1 H2)].
Defined.


